(** * A didactic binary search tree: [tree_node.py] and [bst.py]

    Shallow embedding of the two Python classes [TreeNode] and
    [BinarySearchTree], followed by the properties of the insert, find,
    remove and traversal operations.

    Objects are values: a node is the tree below it, and a method that
    mutates takes the tree before the call and returns the tree after it,
    also when it raises.  Python integers are [Z].  The interpreter's
    recursion limit is not modelled: every recursive call returns. *)

From Stdlib Require Import ZArith List Lia Bool.
From Stdlib Require String.
From Stdlib Require Import Sorting.Sorted Sorting.Permutation.
Import ListNotations.
Open Scope Z_scope.

(** ** Python objects and exceptions *)

(** The objects a caller may pass as a key.  [bool] is a subclass of [int]
    in Python, so [isinstance(True, int)] holds and [True] compares as [1]. *)
Inductive pyobj : Type :=
| PyInt (z : Z)
| PyBool (b : bool)
| PyStr (s : String.string)
| PyNone.

(** [isinstance(key, int)], giving the integer the object compares as. *)
Definition isinstance_int (key : pyobj) : option Z :=
  match key with
  | PyInt z => Some z
  | PyBool b => Some (if b then 1 else 0)
  | PyStr _ => None
  | PyNone => None
  end.

(** The exceptions of the two modules.  [AttributeError] is what Python
    raises on an attribute access on [None]. *)
Inductive exn : Type := ValueError | KeyError | AttributeError.

Inductive result (A : Type) : Type :=
| Return (a : A)
| Raise (e : exn).
Arguments Return {A} a.
Arguments Raise {A} e.

(** Extended integers: the bounds of the validity check are the floats
    [-inf] and [+inf] or the key of an ancestor. *)
Inductive bound : Type := NegInf | Fin (z : Z) | PosInf.

Definition bound_ltb (a b : bound) : bool :=
  match a, b with
  | NegInf, NegInf => false
  | NegInf, _ => true
  | Fin _, NegInf => false
  | Fin x, Fin y => x <? y
  | Fin _, PosInf => true
  | PosInf, _ => false
  end.

Section BST.

Variable V : Type.

(** ** tree_node.py *)

(** A reference to a node: [Nil] is Python's [None]; the fields of
    [TreeNode] come in the order of the arguments of [TreeNode.__init__]. *)
Inductive node : Type :=
| Nil
| TreeNode (key : Z) (value : V) (right left parent : node).

Definition key (self : node) : result Z :=
  match self with
  | Nil => Raise AttributeError
  | TreeNode k _ _ _ _ => Return k
  end.

Definition value (self : node) : result V :=
  match self with
  | Nil => Raise AttributeError
  | TreeNode _ v _ _ _ => Return v
  end.

Definition parent (self : node) : result node :=
  match self with
  | Nil => Raise AttributeError
  | TreeNode _ _ _ _ p => Return p
  end.

(** [TreeNode.depth] *)
Fixpoint depth (self : node) : result Z :=
  match self with
  | Nil => Raise AttributeError
  | TreeNode _ _ _ _ p =>
      match p with
      | Nil => Return 0
      | TreeNode _ _ _ _ _ =>
          match depth p with
          | Return d => Return (d + 1)
          | Raise e => Raise e
          end
      end
  end.

(** [TreeNode.is_external] and [TreeNode.is_internal] *)
Definition is_external (self : node) : result bool :=
  match self with
  | Nil => Raise AttributeError
  | TreeNode _ _ Nil Nil _ => Return true
  | TreeNode _ _ _ _ _ => Return false
  end.

Definition is_internal (self : node) : result bool :=
  match is_external self with
  | Return b => Return (negb b)
  | Raise e => Raise e
  end.

(** ** bst.py *)

Record BinarySearchTree : Type := mkBST {
  _root : node;
  _size : Z;
  _num_of_comparisons : Z
}.

(** [BinarySearchTree.__init__] *)
Definition __init__ (root : node) : BinarySearchTree :=
  {| _root := root;
     _size := match root with Nil => 0 | TreeNode _ _ _ _ _ => 1 end;
     _num_of_comparisons := 0 |}.

(** [_insert_recursive] mutates the nodes under [node] and [self._size];
    both are threaded through, also when the call raises. *)
Fixpoint _insert_recursive (n : node) (k : Z) (v : V) (size : Z)
  : result unit * (node * Z) :=
  match n with
  | Nil => (Raise AttributeError, (n, size))
  | TreeNode nk nv r l p =>
      if k =? nk then (Raise KeyError, (n, size))
      else if k <? nk then
        match l with
        | Nil =>
            (Return tt,
             (TreeNode nk nv r (TreeNode k v Nil Nil Nil) p, size + 1))
        | TreeNode _ _ _ _ _ =>
            let '(res, (l', size')) := _insert_recursive l k v size in
            (res, (TreeNode nk nv r l' p, size'))
        end
      else
        match r with
        | Nil =>
            (Return tt,
             (TreeNode nk nv (TreeNode k v Nil Nil Nil) l p, size + 1))
        | TreeNode _ _ _ _ _ =>
            let '(res, (r', size')) := _insert_recursive r k v size in
            (res, (TreeNode nk nv r' l p, size'))
        end
  end.

(** [insert]: the [try ... except KeyError: raise KeyError] re-raises the
    KeyError of the helper; any other exception passes through as it is. *)
Definition insert (self : BinarySearchTree) (key : pyobj) (v : V)
  : result unit * BinarySearchTree :=
  match isinstance_int key with
  | None => (Raise ValueError, self)
  | Some k =>
      match _root self with
      | Nil =>
          (Return tt,
           {| _root := TreeNode k v Nil Nil Nil;
              _size := _size self + 1;
              _num_of_comparisons := _num_of_comparisons self |})
      | TreeNode _ _ _ _ _ =>
          let '(res, (root', size')) :=
            _insert_recursive (_root self) k v (_size self) in
          let self' := {| _root := root'; _size := size';
                          _num_of_comparisons := _num_of_comparisons self |} in
          match res with
          | Return _ => (Return tt, self')
          | Raise KeyError => (Raise KeyError, self')
          | Raise e => (Raise e, self')
          end
      end
  end.

Fixpoint _find_recursive (n : node) (k : Z) : node :=
  match n with
  | Nil => Nil
  | TreeNode nk _ r l _ =>
      if k =? nk then n
      else if k <? nk then _find_recursive l k
      else _find_recursive r k
  end.

(** [find] assigns nothing: the tree it returns is the one it was given. *)
Definition find (self : BinarySearchTree) (key : pyobj)
  : result node * BinarySearchTree :=
  match isinstance_int key with
  | None => (Raise ValueError, self)
  | Some k =>
      match _find_recursive (_root self) k with
      | Nil => (Raise KeyError, self)
      | TreeNode _ _ _ _ _ as n => (Return n, self)
      end
  end.

(** The [size] property. *)
Definition size (self : BinarySearchTree) : Z := _size self.

Definition __getitem__ (self : BinarySearchTree) (key : pyobj)
  : result V * BinarySearchTree :=
  match find self key with
  | (Return n, self') => (value n, self')
  | (Raise e, self') => (Raise e, self')
  end.

(** The loop [while successor.left: successor = successor.left]. *)
Fixpoint leftmost (successor : node) : node :=
  match successor with
  | Nil => Nil
  | TreeNode _ _ _ l _ =>
      match l with
      | Nil => successor
      | TreeNode _ _ _ _ _ => leftmost l
      end
  end.

(** The closure [remove_recursive] of [remove]; [k] is the [key] of the
    enclosing call, which the closure reads at every level. *)
Fixpoint remove_recursive (k : Z) (n : node) : node * bool :=
  match n with
  | Nil => (n, false)
  | TreeNode nk nv r l p =>
      if k <? nk then
        let '(l', removed) := remove_recursive k l in
        (TreeNode nk nv r l' p, removed)
      else if k >? nk then
        let '(r', removed) := remove_recursive k r in
        (TreeNode nk nv r' l p, removed)
      else
        match l, r with
        | TreeNode _ _ _ _ _, TreeNode _ _ _ _ _ =>
            match leftmost r with
            | TreeNode sk sv _ _ _ =>
                let '(r', _) := remove_recursive k r in
                (TreeNode sk sv r' l p, true)
            | Nil => (n, true) (* not reached: [r] is a node *)
            end
        | TreeNode _ _ _ _ _, Nil => (l, true)
        | Nil, _ => (r, true)
        end
  end.

(** [remove]: the root is assigned before the test of [deleted]. *)
Definition remove (self : BinarySearchTree) (key : pyobj)
  : result unit * BinarySearchTree :=
  match isinstance_int key with
  | None => (Raise ValueError, self)
  | Some k =>
      let '(root', deleted) := remove_recursive k (_root self) in
      let self' := {| _root := root'; _size := _size self;
                      _num_of_comparisons := _num_of_comparisons self |} in
      if negb deleted then (Raise KeyError, self')
      else (Return tt,
            {| _root := root'; _size := _size self - 1;
               _num_of_comparisons := _num_of_comparisons self |})
  end.

Fixpoint _inorder (current_node : node) : list node :=
  match current_node with
  | Nil => []
  | TreeNode _ _ r l _ => _inorder l ++ [current_node] ++ _inorder r
  end.

Fixpoint _preorder (current_node : node) : list node :=
  match current_node with
  | Nil => []
  | TreeNode _ _ r l _ => [current_node] ++ _preorder l ++ _preorder r
  end.

Fixpoint _postorder (current_node : node) : list node :=
  match current_node with
  | Nil => []
  | TreeNode _ _ r l _ => _postorder l ++ _postorder r ++ [current_node]
  end.

(** [node or self._root]: a [TreeNode] is always truthy, [None] is not. *)
Definition or_root (self : BinarySearchTree) (n : node) : node :=
  match n with
  | Nil => _root self
  | TreeNode _ _ _ _ _ => n
  end.

(** The three generators, as the sequence of nodes they yield.  A
    [return iter(())] inside a generator ends it with nothing yielded. *)
Definition inorder (self : BinarySearchTree) (n : node) : list node :=
  match or_root self n with
  | Nil => []
  | TreeNode _ _ _ _ _ as n' => _inorder n'
  end.

Definition preorder (self : BinarySearchTree) (n : node) : list node :=
  match or_root self n with
  | Nil => []
  | TreeNode _ _ _ _ _ as n' => _preorder n'
  end.

Definition postorder (self : BinarySearchTree) (n : node) : list node :=
  match or_root self n with
  | Nil => []
  | TreeNode _ _ _ _ _ as n' => _postorder n'
  end.

Definition __iter__ (self : BinarySearchTree) : list node :=
  _preorder (_root self).

(** The function nested in [is_valid]. *)
Fixpoint is_valid_recursive (n : node) (lower upper : bound) : bool :=
  match n with
  | Nil => true
  | TreeNode nk _ r l _ =>
      if negb (bound_ltb lower (Fin nk) && bound_ltb (Fin nk) upper) then false
      else is_valid_recursive l lower (Fin nk)
           && is_valid_recursive r (Fin nk) upper
  end.

(** The [is_valid] property: its body defines [is_valid_recursive] and
    ends; there is no call and no [return], so the result is [None]. *)
Definition is_valid (self : BinarySearchTree) : pyobj := PyNone.

(** [return_min_key]: [while node and node.left: node = node.left]. *)
Definition return_min_key (self : BinarySearchTree) : node :=
  leftmost (_root self).

Definition get_root (self : BinarySearchTree) : node := _root self.

(** ** Vocabulary of the properties *)

(** The keys of a sequence of yielded nodes ([None] carries no key). *)
Definition keys_of (l : list node) : list Z :=
  flat_map (fun n => match n with
                     | Nil => []
                     | TreeNode k _ _ _ _ => [k]
                     end) l.

(** The keys of the nodes under [n], in inorder. *)
Definition tree_keys (n : node) : list Z := keys_of (_inorder n).

(** Number of nodes reachable from [n] through child links. *)
Fixpoint count_nodes (n : node) : Z :=
  match n with
  | Nil => 0
  | TreeNode _ _ r l _ => 1 + count_nodes l + count_nodes r
  end.

Fixpoint all_keys (P : Z -> Prop) (n : node) : Prop :=
  match n with
  | Nil => True
  | TreeNode k _ r l _ => P k /\ all_keys P l /\ all_keys P r
  end.

(** The ordering of keys: left of a node everything is smaller; right of
    it everything is larger ([strict]) or at least as large. *)
Definition right_ok (strict : bool) (k x : Z) : Prop :=
  if strict then k < x else k <= x.

Fixpoint ordered (strict : bool) (n : node) : Prop :=
  match n with
  | Nil => True
  | TreeNode k _ r l _ =>
      all_keys (fun x => x < k) l /\ all_keys (right_ok strict k) r
      /\ ordered strict l /\ ordered strict r
  end.

(** [x] lies strictly between the two bounds. *)
Definition within (lower upper : bound) (x : Z) : Prop :=
  bound_ltb lower (Fin x) = true /\ bound_ltb (Fin x) upper = true.

(** No node under [n] has its [parent] field set. *)
Fixpoint parents_absent (n : node) : Prop :=
  match n with
  | Nil => True
  | TreeNode _ _ r l p => p = Nil /\ parents_absent l /\ parents_absent r
  end.

(** [m] is reached from [n] by following [left] links only. *)
Inductive left_chain : node -> node -> Prop :=
| left_chain_here n : left_chain n n
| left_chain_step k v r l p m :
    left_chain l m -> left_chain (TreeNode k v r l p) m.

(** The trees built from the empty tree by successful calls of [insert]
    and [remove]. *)
Inductive reachable : BinarySearchTree -> Prop :=
| reachable_init : reachable (__init__ Nil)
| reachable_insert self key v self' :
    reachable self -> insert self key v = (Return tt, self') ->
    reachable self'
| reachable_remove self key self' :
    reachable self -> remove self key = (Return tt, self') ->
    reachable self'.

(** The tree with root 2, left child 1 and right child 3, as three
    inserts into the empty tree leave it. *)
Definition tree_213 (v2 v1 v3 : V) : BinarySearchTree :=
  {| _root := TreeNode 2 v2 (TreeNode 3 v3 Nil Nil Nil)
                            (TreeNode 1 v1 Nil Nil Nil) Nil;
     _size := 3;
     _num_of_comparisons := 0 |}.

(** What the subscript gives for the integer [k] in the tree under [n]:
    the value of the node the search ends at, or KeyError. *)
Definition lookup (n : node) (k : Z) : result V :=
  match _find_recursive n k with
  | Nil => Raise KeyError
  | TreeNode _ v _ _ _ => Return v
  end.

(** The nodes met from [n] on by following [parent] links. *)
Fixpoint parent_chain (n : node) : list node :=
  match n with
  | Nil => []
  | TreeNode _ _ _ _ p => n :: parent_chain p
  end.

(** Insertion of a list of integer keys with their values, in order,
    stopping at the first call that raises. *)
Fixpoint insert_all (self : BinarySearchTree) (kvs : list (Z * V))
  : result unit * BinarySearchTree :=
  match kvs with
  | [] => (Return tt, self)
  | (k, v) :: rest =>
      match insert self (PyInt k) v with
      | (Return _, self') => insert_all self' rest
      | (Raise e, self') => (Raise e, self')
      end
  end.

(** ** Sequences of keys *)

Lemma keys_of_app (a b : list node) :
  keys_of (a ++ b) = keys_of a ++ keys_of b.
Proof. unfold keys_of. apply flat_map_app. Qed.

Lemma tree_keys_node k v r l p :
  tree_keys (TreeNode k v r l p) = tree_keys l ++ k :: tree_keys r.
Proof.
  unfold tree_keys. simpl. rewrite keys_of_app. reflexivity.
Qed.

Lemma tree_keys_nil : tree_keys Nil = [].
Proof. reflexivity. Qed.

Lemma all_keys_Forall P n : all_keys P n <-> Forall P (tree_keys n).
Proof.
  induction n as [|k v r IHr l IHl p _].
  - simpl. split; auto.
  - rewrite tree_keys_node. simpl. rewrite Forall_app, Forall_cons_iff.
    rewrite IHr, IHl. tauto.
Qed.

Lemma all_keys_In P n x : all_keys P n -> In x (tree_keys n) -> P x.
Proof.
  rewrite all_keys_Forall, Forall_forall. auto.
Qed.

Lemma all_keys_impl (P Q : Z -> Prop) n :
  (forall x, P x -> Q x) -> all_keys P n -> all_keys Q n.
Proof.
  intros H. induction n as [|k v r IHr l IHl p _]; simpl; [auto|].
  intros (Hk & Hl & Hr). auto.
Qed.

Lemma inorder_not_nil n m : In m (_inorder n) -> m <> Nil.
Proof.
  induction n as [|k v r IHr l IHl p _]; simpl; [tauto|].
  rewrite in_app_iff. simpl. intros [H|[H|H]]; auto.
  subst. discriminate.
Qed.

Lemma length_inorder n : Z.of_nat (length (_inorder n)) = count_nodes n.
Proof.
  induction n as [|k v r IHr l IHl p _]; [reflexivity|].
  cbn [_inorder count_nodes]. rewrite !length_app. cbn [length app].
  lia.
Qed.

Lemma length_preorder n : Z.of_nat (length (_preorder n)) = count_nodes n.
Proof.
  induction n as [|k v r IHr l IHl p _]; [reflexivity|].
  cbn [_preorder count_nodes app]. cbn [length]. rewrite !length_app.
  lia.
Qed.

Lemma length_postorder n : Z.of_nat (length (_postorder n)) = count_nodes n.
Proof.
  induction n as [|k v r IHr l IHl p _]; [reflexivity|].
  cbn [_postorder count_nodes]. rewrite !length_app. cbn [length].
  lia.
Qed.

Lemma length_tree_keys n : length (tree_keys n) = length (_inorder n).
Proof.
  induction n as [|k v r IHr l IHl p _]; [reflexivity|].
  rewrite tree_keys_node. simpl. rewrite !length_app. simpl.
  rewrite IHr, IHl. reflexivity.
Qed.

Lemma ordered_weaken n : ordered true n -> ordered false n.
Proof.
  induction n as [|k v r IHr l IHl p _]; simpl; [auto|].
  intros (Hl & Hr & Ol & Or). repeat split; auto.
  eapply all_keys_impl; [|exact Hr]. simpl. intros; lia.
Qed.

(** ** Lookup *)

Lemma find_recursive_key n k fk fv fr fl fp :
  _find_recursive n k = TreeNode fk fv fr fl fp ->
  fk = k /\ In k (tree_keys n).
Proof.
  induction n as [|nk nv r IHr l IHl p _]; simpl; [discriminate|].
  rewrite tree_keys_node, in_app_iff. simpl.
  destruct (k =? nk) eqn:E.
  - intros H. inversion H; subst. apply Z.eqb_eq in E. auto.
  - destruct (k <? nk); intros H.
    + destruct (IHl H); auto.
    + destruct (IHr H); auto.
Qed.

Lemma find_recursive_absent n k :
  ~ In k (tree_keys n) -> _find_recursive n k = Nil.
Proof.
  intros H. destruct (_find_recursive n k) eqn:E; [reflexivity|].
  apply find_recursive_key in E. tauto.
Qed.

Lemma find_recursive_present n k :
  ordered false n -> In k (tree_keys n) -> _find_recursive n k <> Nil.
Proof.
  induction n as [|nk nv r IHr l IHl p _]; simpl; [tauto|].
  intros (Hl & Hr & Ol & Or). rewrite tree_keys_node, in_app_iff. simpl.
  intros Hin. destruct (k =? nk) eqn:E; [discriminate|].
  apply Z.eqb_neq in E.
  destruct (k <? nk) eqn:E'.
  - apply Z.ltb_lt in E'. apply IHl; auto.
    destruct Hin as [H|[H|H]]; auto; [congruence|].
    apply (all_keys_In _ _ _ Hr) in H. simpl in H. lia.
  - apply Z.ltb_ge in E'. apply IHr; auto.
    destruct Hin as [H|[H|H]]; auto; [|congruence].
    apply (all_keys_In _ _ _ Hl) in H. lia.
Qed.

(** ** Insertion *)

Lemma insert_recursive_raise n k v s e n' s' :
  _insert_recursive n k v s = (Raise e, (n', s')) -> n' = n /\ s' = s.
Proof.
  revert n' s'.
  induction n as [|nk nv r IHr l IHl p _]; intros n' s' H; simpl in H.
  - inversion H; auto.
  - destruct (k =? nk); [inversion H; auto|].
    destruct (k <? nk).
    + destruct l as [|lk lv lr ll lp]; [discriminate|].
      destruct (_insert_recursive (TreeNode lk lv lr ll lp) k v s)
        as [res [l' s'']] eqn:E.
      inversion H; subst. destruct (IHl _ _ eq_refl); subst; auto.
    + destruct r as [|rk rv rr rl rp]; [discriminate|].
      destruct (_insert_recursive (TreeNode rk rv rr rl rp) k v s)
        as [res [r' s'']] eqn:E.
      inversion H; subst. destruct (IHr _ _ eq_refl); subst; auto.
Qed.

Lemma insert_recursive_found n k v s :
  _find_recursive n k <> Nil ->
  _insert_recursive n k v s = (Raise KeyError, (n, s)).
Proof.
  induction n as [|nk nv r IHr l IHl p _]; simpl; [tauto|].
  intros H. destruct (k =? nk); [reflexivity|].
  destruct (k <? nk).
  - destruct l as [|lk lv lr ll lp]; [simpl in H; tauto|].
    rewrite (IHl H). reflexivity.
  - destruct r as [|rk rv rr rl rp]; [simpl in H; tauto|].
    rewrite (IHr H). reflexivity.
Qed.

Lemma insert_recursive_total n k v s :
  n <> Nil -> _find_recursive n k = Nil ->
  exists n', _insert_recursive n k v s = (Return tt, (n', s + 1)).
Proof.
  induction n as [|nk nv r IHr l IHl p _]; simpl; [tauto|].
  intros _ H. destruct (k =? nk); [discriminate|].
  destruct (k <? nk).
  - destruct l as [|lk lv lr ll lp]; [eauto|].
    destruct (IHl ltac:(discriminate) H) as [l' ->]. eauto.
  - destruct r as [|rk rv rr rl rp]; [eauto|].
    destruct (IHr ltac:(discriminate) H) as [r' ->]. eauto.
Qed.

Lemma perm_insert_right (a b b' : list Z) (x k : Z) :
  Permutation b' (k :: b) ->
  Permutation (a ++ x :: b') (k :: a ++ x :: b).
Proof.
  intros H. transitivity (a ++ k :: x :: b).
  - apply Permutation_app_head. rewrite H. apply perm_swap.
  - symmetry. apply Permutation_middle.
Qed.

Lemma insert_recursive_return n k v s n' s' :
  _insert_recursive n k v s = (Return tt, (n', s')) ->
  s' = s + 1
  /\ Permutation (tree_keys n') (k :: tree_keys n)
  /\ count_nodes n' = count_nodes n + 1
  /\ (forall P : Z -> Prop, all_keys P n -> P k -> all_keys P n')
  /\ (forall b, ordered b n -> ordered b n')
  /\ (parents_absent n -> parents_absent n').
Proof.
  revert n' s'.
  induction n as [|nk nv r IHr l IHl p _]; intros n' s' H; simpl in H;
    [discriminate|].
  destruct (k =? nk) eqn:Ek; [discriminate|]. apply Z.eqb_neq in Ek.
  destruct (k <? nk) eqn:El.
  - apply Z.ltb_lt in El.
    destruct l as [|lk lv lr ll lp].
    + inversion H; subst; clear H. rewrite !tree_keys_node.
      split; [reflexivity|]. split; [apply Permutation_refl|].
      split; [cbn [count_nodes]; lia|]. simpl. repeat split; tauto.
    + destruct (_insert_recursive (TreeNode lk lv lr ll lp) k v s)
        as [res [l' s'']] eqn:E.
      inversion H; subst; clear H.
      destruct (IHl _ _ eq_refl) as (Hs & Hp & Hc & Ha & Ho & Hpa).
      rewrite (tree_keys_node nk nv r l'), (tree_keys_node nk nv r _).
      split; [exact Hs|].
      split. { rewrite Hp. reflexivity. }
      split. { cbn [count_nodes] in *. lia. }
      split. { intros P (Pk & Pl & Pr) Hk. cbn [all_keys]. auto. }
      split. { intros b (Al & Ar & Ol & Or). cbn [ordered]. auto. }
      intros (Pp & Pl & Pr). cbn [parents_absent]. auto.
  - apply Z.ltb_ge in El.
    destruct r as [|rk rv rr rl rp].
    + inversion H; subst; clear H. rewrite !tree_keys_node.
      split; [reflexivity|].
      split. { apply perm_insert_right. apply Permutation_refl. }
      split; [cbn [count_nodes]; lia|]. simpl.
      split; [tauto|]. split; [|tauto].
      intros b (Al & _ & Ol & _). repeat split; auto.
      destruct b; simpl; lia.
    + destruct (_insert_recursive (TreeNode rk rv rr rl rp) k v s)
        as [res [r' s'']] eqn:E.
      inversion H; subst; clear H.
      destruct (IHr _ _ eq_refl) as (Hs & Hp & Hc & Ha & Ho & Hpa).
      rewrite (tree_keys_node nk nv r'), (tree_keys_node nk nv _ l).
      split; [exact Hs|].
      split. { apply perm_insert_right. exact Hp. }
      split. { cbn [count_nodes] in *. lia. }
      split. { intros P (Pk & Pl & Pr) Hk. cbn [all_keys]. auto. }
      split.
      { intros b (Al & Ar & Ol & Or). cbn [ordered].
        repeat split; auto. apply Ha; auto. destruct b; simpl; lia. }
      intros (Pp & Pl & Pr). cbn [parents_absent]. auto.
Qed.

Lemma sorted_app (a b : list Z) (x : Z) :
  StronglySorted Z.lt a -> StronglySorted Z.lt b ->
  Forall (fun y => y < x) a -> Forall (fun y => x < y) b ->
  StronglySorted Z.lt (a ++ x :: b).
Proof.
  intros Sa Sb Fa Fb. induction Sa as [|y a Sa IH Hy]; simpl.
  - constructor; assumption.
  - inversion Fa as [|? ? Hyx Fa']; subst. constructor; [auto|].
    rewrite Forall_app. split; [assumption|].
    constructor; [assumption|].
    eapply Forall_impl; [|exact Fb]. simpl. intros; lia.
Qed.

Lemma ordered_sorted n : ordered true n -> StronglySorted Z.lt (tree_keys n).
Proof.
  induction n as [|nk nv r IHr l IHl p _]; simpl.
  - intros _. constructor.
  - intros (Hl & Hr & Ol & Or). rewrite tree_keys_node.
    apply sorted_app; auto; apply all_keys_Forall; assumption.
Qed.

Lemma insert_found self key k v :
  isinstance_int key = Some k -> _find_recursive (_root self) k <> Nil ->
  insert self key v = (Raise KeyError, self).
Proof.
  intros Hk Hf. unfold insert. rewrite Hk.
  destruct self as [root sz cmp]. simpl in *.
  destruct root as [|rk rv rr rl rp]; [simpl in Hf; tauto|].
  rewrite (insert_recursive_found _ _ v sz Hf). reflexivity.
Qed.

Lemma insert_absent self key k v :
  isinstance_int key = Some k -> _find_recursive (_root self) k = Nil ->
  exists root',
    insert self key v =
      (Return tt, {| _root := root'; _size := _size self + 1;
                     _num_of_comparisons := _num_of_comparisons self |})
    /\ Permutation (tree_keys root') (k :: tree_keys (_root self))
    /\ count_nodes root' = count_nodes (_root self) + 1
    /\ (forall b, ordered b (_root self) -> ordered b root')
    /\ (parents_absent (_root self) -> parents_absent root').
Proof.
  intros Hk Hf. unfold insert. rewrite Hk.
  destruct (_root self) as [|rk rv rr rl rp] eqn:Er.
  - exists (TreeNode k v Nil Nil Nil). split; [reflexivity|].
    split; [apply Permutation_refl|]. split; [reflexivity|].
    simpl. tauto.
  - destruct (insert_recursive_total (TreeNode rk rv rr rl rp) k v (_size self)
                ltac:(discriminate) Hf) as [root' E].
    rewrite E. exists root'. split; [reflexivity|].
    apply insert_recursive_return in E. tauto.
Qed.

Lemma insert_return self key v self' :
  insert self key v = (Return tt, self') ->
  exists k, isinstance_int key = Some k
    /\ _find_recursive (_root self) k = Nil
    /\ _size self' = _size self + 1
    /\ Permutation (tree_keys (_root self')) (k :: tree_keys (_root self))
    /\ count_nodes (_root self') = count_nodes (_root self) + 1
    /\ (forall b, ordered b (_root self) -> ordered b (_root self'))
    /\ (parents_absent (_root self) -> parents_absent (_root self')).
Proof.
  intros H. destruct (isinstance_int key) as [k|] eqn:Hk.
  - exists k. split; [reflexivity|].
    destruct (_find_recursive (_root self) k) eqn:Hf.
    + destruct (insert_absent self key k v Hk Hf) as (root' & E & Hrest).
      rewrite E in H. inversion H; subst; clear H. simpl. tauto.
    + rewrite (insert_found self key k v Hk) in H; [discriminate|].
      rewrite Hf. discriminate.
  - unfold insert in H. rewrite Hk in H. discriminate.
Qed.

Lemma insert_raise self key v e self' :
  insert self key v = (Raise e, self') -> self' = self.
Proof.
  intros H. destruct (isinstance_int key) as [k|] eqn:Hk.
  - destruct (_find_recursive (_root self) k) eqn:Hf.
    + destruct (insert_absent self key k v Hk Hf) as (root' & E & _).
      rewrite E in H. discriminate.
    + rewrite (insert_found self key k v Hk) in H; [congruence|].
      rewrite Hf. discriminate.
  - unfold insert in H. rewrite Hk in H. congruence.
Qed.

(** ** The leftmost node *)

Lemma leftmost_node k v r l p :
  exists sk sv sr sp,
    leftmost (TreeNode k v r l p) = TreeNode sk sv sr Nil sp.
Proof.
  revert k v r p. induction l as [|lk lv lr _ ll IHll lp _]; intros k v r p.
  - simpl. eauto.
  - destruct (IHll lk lv lr lp) as (sk & sv & sr & sp & E).
    exists sk, sv, sr, sp. rewrite <- E. reflexivity.
Qed.

Lemma leftmost_chain n : left_chain n (leftmost n).
Proof.
  induction n as [|k v r _ l IHl p _]; [constructor|].
  destruct l as [|lk lv lr ll lp]; [constructor|].
  apply left_chain_step. exact IHl.
Qed.

Lemma leftmost_in n sk sv sr sl sp :
  leftmost n = TreeNode sk sv sr sl sp -> In sk (tree_keys n).
Proof.
  induction n as [|k v r _ l IHl p _]; [discriminate|].
  rewrite tree_keys_node, in_app_iff.
  destruct l as [|lk lv lr ll lp].
  - simpl. intros H. inversion H; subst. auto.
  - intros H. left. apply IHl. exact H.
Qed.

Lemma leftmost_least b n sk sv sr sl sp :
  ordered b n -> leftmost n = TreeNode sk sv sr sl sp ->
  all_keys (fun x => sk <= x) n.
Proof.
  induction n as [|k v r _ l IHl p _]; [discriminate|].
  intros (Hl & Hr & Ol & Or) H.
  destruct l as [|lk lv lr ll lp].
  - simpl in H. inversion H; subst. cbn [all_keys].
    split; [lia|]. split; [exact I|].
    eapply all_keys_impl; [|exact Hr]. destruct b; simpl; intros; lia.
  - assert (Hin : In sk (tree_keys (TreeNode lk lv lr ll lp)))
      by (eapply leftmost_in; exact H).
    pose proof (all_keys_In _ _ _ Hl Hin) as Hlt. simpl in Hlt.
    cbn [all_keys]. split; [lia|]. split; [apply IHl; assumption|].
    eapply all_keys_impl; [|exact Hr]. destruct b; simpl; intros; lia.
Qed.

(** ** Removal *)

Lemma remove_recursive_miss n k :
  _find_recursive n k = Nil -> remove_recursive k n = (n, false).
Proof.
  induction n as [|nk nv r IHr l IHl p _]; simpl; [reflexivity|].
  destruct (k =? nk) eqn:E; [discriminate|]. apply Z.eqb_neq in E.
  rewrite Z.gtb_ltb.
  destruct (k <? nk) eqn:El; intros H.
  - rewrite (IHl H). reflexivity.
  - apply Z.ltb_ge in El.
    replace (nk <? k) with true by (symmetry; apply Z.ltb_lt; lia).
    rewrite (IHr H). reflexivity.
Qed.

Lemma remove_recursive_hit n k :
  _find_recursive n k <> Nil -> snd (remove_recursive k n) = true.
Proof.
  induction n as [|nk nv r IHr l IHl p _]; simpl; [tauto|].
  rewrite Z.gtb_ltb.
  destruct (k =? nk) eqn:E.
  - apply Z.eqb_eq in E. subst nk. rewrite Z.ltb_irrefl. intros _.
    destruct l as [|lk lv lr ll lp]; [reflexivity|].
    destruct r as [|rk rv rr rl rp]; [reflexivity|].
    destruct (leftmost_node rk rv rr rl rp) as (sk & sv & sr & sp & Es).
    rewrite Es.
    destruct (remove_recursive k (TreeNode rk rv rr rl rp)). reflexivity.
  - apply Z.eqb_neq in E.
    destruct (k <? nk) eqn:El; intros H.
    + specialize (IHl H). destruct (remove_recursive k l). exact IHl.
    + apply Z.ltb_ge in El.
      replace (nk <? k) with true by (symmetry; apply Z.ltb_lt; lia).
      specialize (IHr H). destruct (remove_recursive k r). exact IHr.
Qed.

Lemma remove_recursive_false n k n' :
  remove_recursive k n = (n', false) -> n' = n /\ _find_recursive n k = Nil.
Proof.
  intros H. destruct (_find_recursive n k) eqn:Hf.
  - rewrite (remove_recursive_miss n k Hf) in H. inversion H. auto.
  - assert (Hs : snd (remove_recursive k n) = true)
      by (apply remove_recursive_hit; rewrite Hf; discriminate).
    rewrite H in Hs. discriminate.
Qed.

Lemma remove_recursive_all_keys (P : Z -> Prop) n k :
  all_keys P n -> all_keys P (fst (remove_recursive k n)).
Proof.
  induction n as [|nk nv r IHr l IHl p _]; simpl; [auto|].
  intros (Pk & Pl & Pr).
  destruct (k <? nk).
  { specialize (IHl Pl). destruct (remove_recursive k l). simpl in *. auto. }
  destruct (k >? nk).
  { specialize (IHr Pr). destruct (remove_recursive k r). simpl in *. auto. }
  destruct l as [|lk lv lr ll lp]; [exact Pr|].
  destruct r as [|rk rv rr rl rp]; [exact Pl|].
  destruct (leftmost_node rk rv rr rl rp) as (sk & sv & sr & sp & Es).
  rewrite Es. specialize (IHr Pr).
  destruct (remove_recursive k (TreeNode rk rv rr rl rp)). simpl in IHr.
  cbn [fst all_keys]. split; [|split; assumption].
  apply (all_keys_In P (TreeNode rk rv rr rl rp)); [exact Pr|].
  eapply leftmost_in. exact Es.
Qed.

Lemma remove_recursive_parents n k :
  parents_absent n -> parents_absent (fst (remove_recursive k n)).
Proof.
  induction n as [|nk nv r IHr l IHl p _]; simpl; [auto|].
  intros (Pp & Pl & Pr).
  destruct (k <? nk).
  { specialize (IHl Pl). destruct (remove_recursive k l). simpl in *. auto. }
  destruct (k >? nk).
  { specialize (IHr Pr). destruct (remove_recursive k r). simpl in *. auto. }
  destruct l as [|lk lv lr ll lp]; [exact Pr|].
  destruct r as [|rk rv rr rl rp]; [exact Pl|].
  destruct (leftmost_node rk rv rr rl rp) as (sk & sv & sr & sp & Es).
  rewrite Es. specialize (IHr Pr).
  destruct (remove_recursive k (TreeNode rk rv rr rl rp)). simpl in IHr.
  cbn [fst parents_absent]. auto.
Qed.

Lemma remove_recursive_ordered n k :
  ordered false n -> ordered false (fst (remove_recursive k n)).
Proof.
  induction n as [|nk nv r IHr l IHl p _]; simpl; [auto|].
  intros (Hl & Hr & Ol & Or).
  destruct (k <? nk).
  { specialize (IHl Ol).
    pose proof (remove_recursive_all_keys _ l k Hl) as Hl'.
    destruct (remove_recursive k l). simpl in *. auto. }
  destruct (k >? nk).
  { specialize (IHr Or).
    pose proof (remove_recursive_all_keys _ r k Hr) as Hr'.
    destruct (remove_recursive k r). simpl in *. auto. }
  destruct l as [|lk lv lr ll lp]; [exact Or|].
  destruct r as [|rk rv rr rl rp]; [exact Ol|].
  destruct (leftmost_node rk rv rr rl rp) as (sk & sv & sr & sp & Es).
  rewrite Es. specialize (IHr Or).
  pose proof (leftmost_least _ _ _ _ _ _ _ Or Es) as Hmin.
  pose proof (remove_recursive_all_keys _ _ k Hmin) as Hmin'.
  assert (Hsk : nk <= sk).
  { apply (all_keys_In _ _ _ Hr). eapply leftmost_in. exact Es. }
  destruct (remove_recursive k (TreeNode rk rv rr rl rp)). simpl in IHr, Hmin'.
  cbn [fst ordered]. split; [|split; [exact Hmin'|split; assumption]].
  eapply all_keys_impl; [|exact Hl]. simpl. intros; lia.
Qed.

Lemma remove_absent self key k :
  isinstance_int key = Some k -> _find_recursive (_root self) k = Nil ->
  remove self key = (Raise KeyError, self).
Proof.
  intros Hk Hf. unfold remove. rewrite Hk.
  rewrite (remove_recursive_miss _ _ Hf). simpl.
  destruct self; reflexivity.
Qed.

Lemma remove_present self key k :
  isinstance_int key = Some k -> _find_recursive (_root self) k <> Nil ->
  remove self key =
    (Return tt, {| _root := fst (remove_recursive k (_root self));
                   _size := _size self - 1;
                   _num_of_comparisons := _num_of_comparisons self |}).
Proof.
  intros Hk Hf. unfold remove. rewrite Hk.
  pose proof (remove_recursive_hit _ _ Hf) as Hs.
  destruct (remove_recursive k (_root self)) as [root' d]. simpl in Hs.
  subst d. reflexivity.
Qed.

Lemma remove_return self key self' :
  remove self key = (Return tt, self') ->
  exists k, isinstance_int key = Some k
    /\ _find_recursive (_root self) k <> Nil
    /\ self' = {| _root := fst (remove_recursive k (_root self));
                  _size := _size self - 1;
                  _num_of_comparisons := _num_of_comparisons self |}.
Proof.
  intros H. destruct (isinstance_int key) as [k|] eqn:Hk.
  - exists k. split; [reflexivity|].
    destruct (_find_recursive (_root self) k) eqn:Hf.
    + rewrite (remove_absent self key k Hk Hf) in H. discriminate.
    + assert (Hf' : _find_recursive (_root self) k <> Nil)
        by (rewrite Hf; discriminate).
      rewrite (remove_present self key k Hk Hf') in H.
      inversion H. rewrite <- Hf. auto.
  - unfold remove in H. rewrite Hk in H. discriminate.
Qed.

Lemma remove_raise self key e self' :
  remove self key = (Raise e, self') -> self' = self.
Proof.
  intros H. destruct (isinstance_int key) as [k|] eqn:Hk.
  - destruct (_find_recursive (_root self) k) eqn:Hf.
    + rewrite (remove_absent self key k Hk Hf) in H. congruence.
    + rewrite (remove_present self key k Hk) in H; [discriminate|].
      rewrite Hf. discriminate.
  - unfold remove in H. rewrite Hk in H. congruence.
Qed.

(** ** Invariants of the trees built through [insert] and [remove] *)

Lemma reachable_invariant self :
  reachable self ->
  ordered false (_root self) /\ parents_absent (_root self).
Proof.
  induction 1 as [|self key v self' _ [IHo IHp] H|self key self' _ [IHo IHp] H].
  - simpl. auto.
  - apply insert_return in H.
    destruct H as (k & _ & _ & _ & _ & _ & Ho & Hp). auto.
  - apply remove_return in H. destruct H as (k & _ & _ & ->). simpl.
    split; [apply remove_recursive_ordered|apply remove_recursive_parents];
      assumption.
Qed.

Lemma inorder_root self : inorder self Nil = _inorder (_root self).
Proof.
  unfold inorder, or_root. destruct (_root self); reflexivity.
Qed.

Lemma preorder_root self : preorder self Nil = _preorder (_root self).
Proof.
  unfold preorder, or_root. destruct (_root self); reflexivity.
Qed.

Lemma postorder_root self : postorder self Nil = _postorder (_root self).
Proof.
  unfold postorder, or_root. destruct (_root self); reflexivity.
Qed.

Lemma all_keys_absent (P : Z -> Prop) n k :
  all_keys P n -> ~ P k -> _find_recursive n k = Nil.
Proof.
  intros Ha Hk. apply find_recursive_absent. intros Hin.
  apply Hk. exact (all_keys_In _ _ _ Ha Hin).
Qed.

(** Removal of a key whose node has two children, in a tree with the
    strict ordering: the call on the right subtree looks for [k] again,
    finds nothing there, and the successor stays where it was. *)
Lemma remove_recursive_two_children n k v r l p :
  ordered true n ->
  _find_recursive n k = TreeNode k v r l p -> l <> Nil -> r <> Nil ->
  count_nodes (fst (remove_recursive k n)) = count_nodes n
  /\ ~ NoDup (tree_keys (fst (remove_recursive k n))).
Proof.
  intros Ho Hf Hl Hr. revert Ho Hf.
  induction n as [|nk nv nr IHr nl IHl np _]; [simpl; discriminate|].
  cbn [ordered _find_recursive remove_recursive].
  intros (Al & Ar & Ol & Or). rewrite Z.gtb_ltb.
  destruct (k =? nk) eqn:E.
  - apply Z.eqb_eq in E. subst nk. rewrite Z.ltb_irrefl.
    intros H. inversion H; subst; clear H.
    destruct l as [|lk lv lr ll lp]; [tauto|].
    destruct r as [|rk rv rr rl rp]; [tauto|].
    destruct (leftmost_node rk rv rr rl rp) as (sk & sv & sr & sp & Es).
    rewrite Es.
    rewrite (remove_recursive_miss (TreeNode rk rv rr rl rp) k).
    2:{ eapply all_keys_absent; [exact Ar|]. simpl. lia. }
    cbn [fst]. split; [reflexivity|].
    rewrite tree_keys_node. intros Hnd.
    apply NoDup_remove_2 in Hnd. apply Hnd.
    rewrite in_app_iff. right. eapply leftmost_in. exact Es.
  - apply Z.eqb_neq in E.
    destruct (k <? nk) eqn:El; intros H.
    + destruct (IHl Ol H) as [Hc Hd].
      destruct (remove_recursive k nl) as [nl' d]. cbn [fst] in *.
      split; [cbn [count_nodes]; lia|].
      rewrite tree_keys_node. intros Hnd. apply Hd.
      eapply NoDup_app_remove_r. exact Hnd.
    + apply Z.ltb_ge in El.
      replace (nk <? k) with true by (symmetry; apply Z.ltb_lt; lia).
      destruct (IHr Or H) as [Hc Hd].
      destruct (remove_recursive k nr) as [nr' d]. cbn [fst] in *.
      split; [cbn [count_nodes]; lia|].
      rewrite tree_keys_node. intros Hnd. apply Hd.
      apply NoDup_app_remove_l in Hnd. inversion Hnd; assumption.
Qed.

(** The nested validity check decides the strict ordering between its
    bounds. *)
Lemma is_valid_recursive_spec n lower upper :
  is_valid_recursive n lower upper = true <->
  ordered true n /\ all_keys (within lower upper) n.
Proof.
  revert lower upper.
  induction n as [|nk nv r IHr l IHl p _]; intros lower upper;
    cbn [is_valid_recursive ordered all_keys]; [tauto|].
  unfold within at 1.
  destruct (bound_ltb lower (Fin nk)) eqn:E1;
    [|cbn [andb negb]; split; [discriminate|tauto]].
  destruct (bound_ltb (Fin nk) upper) eqn:E2;
    [|cbn [andb negb]; split; [discriminate|tauto]].
  cbn [andb negb]. rewrite andb_true_iff, IHl, IHr.
  assert (Hlt : forall x y, bound_ltb (Fin x) (Fin y) = true <-> x < y)
    by (intros; apply Z.ltb_lt).
  assert (Hlo : forall x, nk < x -> bound_ltb lower (Fin x) = true).
  { intros x Hx. destruct lower as [|lo|]; try reflexivity; [|discriminate].
    apply Hlt. apply Hlt in E1. lia. }
  assert (Hup : forall x, x < nk -> bound_ltb (Fin x) upper = true).
  { intros x Hx. destruct upper as [|up|]; try reflexivity; [discriminate|].
    apply Hlt. apply Hlt in E2. lia. }
  rewrite !all_keys_Forall, !Forall_forall. unfold within, right_ok.
  split.
  - intros ((Ol & Al) & (Or & Ar)).
    split; [split; [|split; [|split; assumption]]|split; [auto|split]];
      intros x Hx.
    + apply Hlt. apply (Al x Hx).
    + apply Hlt. apply (Ar x Hx).
    + split; [apply (Al x Hx)|]. apply Hup. apply Hlt. apply (Al x Hx).
    + split; [|apply (Ar x Hx)]. apply Hlo. apply Hlt. apply (Ar x Hx).
  - intros ((Hl & Hr & Ol & Or) & (_ & Al & Ar)).
    split; (split; [assumption|]); intros x Hx; split.
    + apply (Al x Hx).
    + apply Hlt. apply (Hl x Hx).
    + apply Hlt. apply (Hr x Hx).
    + apply (Ar x Hx).
Qed.

Lemma reachable_insert_all kvs : forall self self',
  reachable self -> insert_all self kvs = (Return tt, self') ->
  reachable self'.
Proof.
  induction kvs as [|[k v] rest IH]; intros self self' Hr H; simpl in H.
  - inversion H; subst. exact Hr.
  - destruct (insert self (PyInt k) v) as [[[]|e] s1] eqn:E; [|discriminate].
    apply (IH s1); [|exact H].
    eapply reachable_insert; [exact Hr|exact E].
Qed.

(** ** Removal of a node with two children *)

(** C1: in a tree with the strict ordering, removing the key [k] of a
    node with two children succeeds and lowers [size] by one, but the call
    on the right subtree searches [k] (not the successor's key) and removes
    nothing: the number of nodes is the same as before and the inorder
    keys are no longer free of duplicates (the successor's key is at the
    node and also still in its right subtree). *)
Theorem remove_two_children_keeps_successor self k v r l p :
  ordered true (_root self) ->
  _find_recursive (_root self) k = TreeNode k v r l p ->
  l <> Nil -> r <> Nil ->
  exists self',
    remove self (PyInt k) = (Return tt, self')
    /\ size self' = size self - 1
    /\ length (inorder self' Nil) = length (inorder self Nil)
    /\ ~ NoDup (keys_of (inorder self' Nil)).
Proof.
  intros Ho Hf Hl Hr.
  assert (Hfound : _find_recursive (_root self) k <> Nil)
    by (rewrite Hf; discriminate).
  rewrite (remove_present self (PyInt k) k eq_refl Hfound).
  eexists. split; [reflexivity|].
  destruct (remove_recursive_two_children _ _ _ _ _ _ Ho Hf Hl Hr)
    as [Hc Hd].
  rewrite !inorder_root. cbn [_root _size size].
  split; [reflexivity|]. split; [|exact Hd].
  apply Nat2Z.inj. rewrite !length_inorder. exact Hc.
Qed.

(** C2: after inserting 5, 3, 8, 1, 4, 7, 9 and removing 5 the size is 6
    and the root holds key 7, but the node with key 7 of the right subtree
    is still there: inorder yields 1, 3, 4, 7, 7, 8, 9, which is not
    strictly ascending. *)
Theorem remove_5_of_seven_keys (v5 v3 v8 v1 v4 v7 v9 : V) :
  exists s7 s6,
    insert_all (__init__ Nil)
      [(5, v5); (3, v3); (8, v8); (1, v1); (4, v4); (7, v7); (9, v9)]
      = (Return tt, s7)
    /\ size s7 = 7
    /\ remove s7 (PyInt 5) = (Return tt, s6)
    /\ size s6 = 6
    /\ key (_root s6) = Return 7
    /\ value (_root s6) = Return v7
    /\ keys_of (inorder s6 Nil) = [1; 3; 4; 7; 7; 8; 9]
    /\ ~ StronglySorted Z.lt (keys_of (inorder s6 Nil)).
Proof.
  eexists. eexists.
  split; [reflexivity|]. split; [reflexivity|].
  split; [reflexivity|]. split; [reflexivity|].
  split; [reflexivity|]. split; [reflexivity|].
  split; [reflexivity|].
  intros H. change (StronglySorted Z.lt [1; 3; 4; 7; 7; 8; 9]) in H.
  do 3 (apply StronglySorted_inv in H; destruct H as [H _]).
  apply StronglySorted_inv in H. destruct H as [_ H].
  inversion H; subst. lia.
Qed.

(** ** Size and node count *)

(** Inserting 2, 1, 3 and removing 2: the root takes the key and value of
    its right child, which stays in place. *)
Lemma insert_213_remove_2 (v2 v1 v3 : V) :
  exists s3 s2,
    insert_all (__init__ Nil) [(2, v2); (1, v1); (3, v3)] = (Return tt, s3)
    /\ remove s3 (PyInt 2) = (Return tt, s2)
    /\ reachable s2
    /\ s2 = {| _root := TreeNode 3 v3 (TreeNode 3 v3 Nil Nil Nil)
                                     (TreeNode 1 v1 Nil Nil Nil) Nil;
               _size := 2;
               _num_of_comparisons := 0 |}.
Proof.
  eexists. eexists.
  split; [reflexivity|]. split; [reflexivity|].
  split; [|reflexivity].
  eapply reachable_remove with (key := PyInt 2).
  - apply (reachable_insert_all [(2, v2); (1, v1); (3, v3)] (__init__ Nil));
      [apply reachable_init|reflexivity].
  - reflexivity.
Qed.

(** C3: a tree built by three inserts and one remove whose [size] is 2
    while three nodes are reachable from the root and yielded by each
    traversal. *)
Theorem size_differs_from_node_count (v2 v1 v3 : V) :
  exists s3 s2,
    insert_all (__init__ Nil) [(2, v2); (1, v1); (3, v3)] = (Return tt, s3)
    /\ remove s3 (PyInt 2) = (Return tt, s2)
    /\ reachable s2
    /\ size s2 = 2
    /\ count_nodes (_root s2) = 3
    /\ length (inorder s2 Nil) = 3%nat
    /\ length (preorder s2 Nil) = 3%nat
    /\ length (postorder s2 Nil) = 3%nat
    /\ length (__iter__ s2) = 3%nat.
Proof.
  destruct (insert_213_remove_2 v2 v1 v3) as (s3 & s2 & H3 & H2 & Hr & ->).
  exists s3. eexists.
  split; [exact H3|]. split; [exact H2|]. split; [exact Hr|].
  repeat split; reflexivity.
Qed.

(** A removal takes away one node at most. *)
Lemma remove_recursive_count n k :
  count_nodes n - 1 <= count_nodes (fst (remove_recursive k n))
  /\ count_nodes (fst (remove_recursive k n)) <= count_nodes n.
Proof.
  assert (Hpos : forall m, 0 <= count_nodes m).
  { induction m as [|mk mv mr IHr ml IHl mp _]; cbn [count_nodes]; lia. }
  induction n as [|nk nv r IHr l IHl p _]; [simpl; lia|].
  cbn [remove_recursive].
  destruct (k <? nk).
  { destruct (remove_recursive k l) as [l' d].
    cbn [fst count_nodes] in *. lia. }
  destruct (k >? nk).
  { destruct (remove_recursive k r) as [r' d].
    cbn [fst count_nodes] in *. lia. }
  pose proof (Hpos l). pose proof (Hpos r).
  destruct l as [|lk lv lr ll lp]; [cbn [fst count_nodes]; lia|].
  destruct r as [|rk rv rr rl rp]; [cbn [fst count_nodes] in *; lia|].
  destruct (leftmost_node rk rv rr rl rp) as (sk & sv & sr & sp & Es).
  rewrite Es.
  destruct (remove_recursive k (TreeNode rk rv rr rl rp)) as [r' d].
  cbn [fst] in *.
  change (count_nodes (TreeNode sk sv r' (TreeNode lk lv lr ll lp) p))
    with (1 + count_nodes (TreeNode lk lv lr ll lp) + count_nodes r').
  change (count_nodes (TreeNode nk nv (TreeNode rk rv rr rl rp)
                                      (TreeNode lk lv lr ll lp) p))
    with (1 + count_nodes (TreeNode lk lv lr ll lp)
          + count_nodes (TreeNode rk rv rr rl rp)).
  lia.
Qed.

(** In a tree built through [insert] and [remove], [size] never exceeds
    the number of nodes. *)
Lemma reachable_size_le_count self :
  reachable self -> size self <= count_nodes (_root self).
Proof.
  induction 1 as [|self key v self' _ IH H|self key self' _ IH H].
  - simpl. lia.
  - apply insert_return in H.
    destruct H as (k & _ & _ & Hsz & _ & Hc & _). unfold size in *. lia.
  - apply remove_return in H. destruct H as (k & _ & _ & ->).
    pose proof (remove_recursive_count (_root self) k).
    unfold size in *. cbn [_size _root]. lia.
Qed.

(** Insertion alone keeps [size] equal to the number of nodes. *)
Lemma insert_keeps_size_count self key v self' :
  size self = count_nodes (_root self) ->
  insert self key v = (Return tt, self') ->
  size self' = count_nodes (_root self').
Proof.
  intros Hs H. apply insert_return in H.
  destruct H as (k & _ & _ & Hsz & _ & Hc & _).
  unfold size in *. lia.
Qed.

(** ** The validity check *)

(** C4: [is_valid] returns [None] for every tree, never [True]; and the
    nested check, had it been called with the infinite bounds, is false on
    a tree built by three inserts and one remove. *)
Theorem is_valid_returns_none (v2 v1 v3 : V) :
  (forall self, is_valid self = PyNone /\ is_valid self <> PyBool true)
  /\ exists self,
       reachable self
       /\ is_valid_recursive (_root self) NegInf PosInf = false.
Proof.
  split.
  - intros self. split; [reflexivity|discriminate].
  - destruct (insert_213_remove_2 v2 v1 v3) as (s3 & s2 & _ & _ & Hr & E).
    exists s2. split; [exact Hr|]. rewrite E. reflexivity.
Qed.

(** ** Inorder after insertions *)

Lemma insert_all_ascending kvs : forall self,
  ordered true (_root self) ->
  NoDup (map fst kvs) ->
  (forall k, In k (map fst kvs) -> ~ In k (tree_keys (_root self))) ->
  exists self',
    insert_all self kvs = (Return tt, self')
    /\ ordered true (_root self')
    /\ size self' = size self + Z.of_nat (length kvs)
    /\ Permutation (tree_keys (_root self'))
                   (map fst kvs ++ tree_keys (_root self)).
Proof.
  induction kvs as [|[k v] rest IH]; intros self Ho Hnd Hfresh.
  - exists self. simpl. repeat split; auto. unfold size. lia.
  - cbn [map fst] in Hnd, Hfresh. inversion Hnd as [|? ? Hk Hnd']; subst.
    assert (Hf : _find_recursive (_root self) k = Nil).
    { apply find_recursive_absent. apply Hfresh. left; reflexivity. }
    destruct (insert_absent self (PyInt k) k v eq_refl Hf)
      as (root' & E & Hp & _ & Hord & _).
    cbn [insert_all]. rewrite E.
    destruct (IH {| _root := root'; _size := _size self + 1;
                    _num_of_comparisons := _num_of_comparisons self |})
      as (self' & E' & Ho' & Hs' & Hp').
    + cbn [_root]. apply Hord. exact Ho.
    + exact Hnd'.
    + cbn [_root]. intros k' Hin Hin'.
      apply (Permutation_in _ Hp) in Hin'. destruct Hin' as [->|Hin'].
      * contradiction.
      * apply (Hfresh k'); [right; exact Hin|exact Hin'].
    + exists self'. split; [exact E'|]. split; [exact Ho'|].
      split.
      * rewrite Hs'. unfold size. cbn [_size length].
        rewrite Nat2Z.inj_succ. lia.
      * rewrite Hp'. cbn [_root map fst app]. rewrite Hp.
        symmetry. apply Permutation_middle.
Qed.

(** C5: inserting pairwise distinct integer keys, with any values, into
    the empty tree succeeds at every step, and the inorder traversal of
    the result yields exactly the inserted keys, in strictly ascending
    order. *)
Theorem inorder_of_distinct_inserts_ascending (kvs : list (Z * V)) :
  NoDup (map fst kvs) ->
  exists self',
    insert_all (__init__ Nil) kvs = (Return tt, self')
    /\ StronglySorted Z.lt (keys_of (inorder self' Nil))
    /\ Permutation (keys_of (inorder self' Nil)) (map fst kvs).
Proof.
  intros Hnd.
  destruct (insert_all_ascending kvs (__init__ Nil))
    as (self' & E & Ho & _ & Hp).
  - exact I.
  - exact Hnd.
  - intros k _ H. exact H.
  - exists self'. split; [exact E|]. rewrite inorder_root.
    split; [apply ordered_sorted; exact Ho|].
    cbn [__init__ _root] in Hp. rewrite tree_keys_nil, app_nil_r in Hp.
    exact Hp.
Qed.

(** ** Failing operations *)

Lemma find_raise self key e self' :
  find self key = (Raise e, self') -> self' = self.
Proof.
  unfold find. destruct (isinstance_int key) as [k|]; [|congruence].
  destruct (_find_recursive (_root self) k); congruence.
Qed.

Lemma find_absent self key k :
  isinstance_int key = Some k -> _find_recursive (_root self) k = Nil ->
  find self key = (Raise KeyError, self).
Proof.
  intros Hk Hf. unfold find. rewrite Hk, Hf. reflexivity.
Qed.

(** C6: a failing operation leaves the tree as it was.  A key that is not
    an integer makes [insert], [find] and [remove] raise ValueError with
    the tree unchanged; in a tree built through [insert] and [remove],
    and in any tree with the ordering of keys, inserting a key that is
    present raises KeyError with the tree unchanged; [find] and [remove]
    of an absent key raise KeyError with the tree unchanged; and whatever
    exception one of the three raises, root, size and counter are the
    ones before the call. *)
Theorem failing_operations_leave_tree_unchanged :
  (forall self key v,
      isinstance_int key = None ->
      insert self key v = (Raise ValueError, self)
      /\ find self key = (Raise ValueError, self)
      /\ remove self key = (Raise ValueError, self))
  /\ (forall self key k v,
        reachable self -> isinstance_int key = Some k ->
        In k (keys_of (inorder self Nil)) ->
        insert self key v = (Raise KeyError, self))
  /\ (forall self key k v,
        ordered false (_root self) -> isinstance_int key = Some k ->
        In k (keys_of (inorder self Nil)) ->
        insert self key v = (Raise KeyError, self))
  /\ (forall self key k,
        isinstance_int key = Some k ->
        ~ In k (keys_of (inorder self Nil)) ->
        find self key = (Raise KeyError, self)
        /\ remove self key = (Raise KeyError, self))
  /\ (forall self key v e self',
        insert self key v = (Raise e, self') -> self' = self)
  /\ (forall self key e self',
        find self key = (Raise e, self') -> self' = self)
  /\ (forall self key e self',
        remove self key = (Raise e, self') -> self' = self).
Proof.
  assert (Hdup : forall self key k v,
             ordered false (_root self) -> isinstance_int key = Some k ->
             In k (keys_of (inorder self Nil)) ->
             insert self key v = (Raise KeyError, self)).
  { intros self key k v Ho Hk Hin. rewrite inorder_root in Hin.
    apply (insert_found self key k v Hk).
    apply find_recursive_present; assumption. }
  split; [|split; [|split; [|split; [|split; [|split]]]]].
  - intros self key v Hk. unfold insert, find, remove. rewrite Hk. auto.
  - intros self key k v Hr. apply Hdup.
    apply reachable_invariant. exact Hr.
  - exact Hdup.
  - intros self key k Hk Hin. rewrite inorder_root in Hin.
    apply find_recursive_absent in Hin.
    split; [apply (find_absent self key k Hk Hin)|].
    apply (remove_absent self key k Hk Hin).
  - exact insert_raise.
  - exact find_raise.
  - exact remove_raise.
Qed.

(** ** Traversals *)

(** C7: iterating the tree yields the nodes of [preorder], called with no
    start node or with the root; both are empty when there is no root. *)
Theorem iter_is_preorder :
  (forall self,
      __iter__ self = preorder self Nil
      /\ __iter__ self = preorder self (_root self))
  /\ (forall sz cmp,
        __iter__ {| _root := Nil; _size := sz; _num_of_comparisons := cmp |}
          = []
        /\ preorder
             {| _root := Nil; _size := sz; _num_of_comparisons := cmp |} Nil
           = []).
Proof.
  split.
  - intros self. unfold __iter__, preorder, or_root.
    destruct (_root self); split; reflexivity.
  - intros sz cmp. split; reflexivity.
Qed.

(** C8: with no root, [inorder], [preorder] and [postorder] yield nothing
    and [return_min_key] returns [None]; with a root, [return_min_key]
    returns a node that has no left child and is reached from the root by
    following left children only. *)
Theorem empty_traversals_and_minimum :
  (forall self,
      _root self = Nil ->
      inorder self Nil = [] /\ preorder self Nil = []
      /\ postorder self Nil = [] /\ return_min_key self = Nil)
  /\ (forall self,
        _root self <> Nil ->
        exists k v r p,
          return_min_key self = TreeNode k v r Nil p
          /\ left_chain (_root self) (return_min_key self)).
Proof.
  split.
  - intros self Hroot.
    unfold inorder, preorder, postorder, or_root, return_min_key.
    rewrite Hroot. repeat split; reflexivity.
  - intros self Hroot. unfold return_min_key.
    destruct (_root self) as [|rk rv rr rl rp]; [tauto|].
    destruct (leftmost_node rk rv rr rl rp) as (k & v & r & p & E).
    exists k, v, r, p. split; [exact E|]. apply leftmost_chain.
Qed.

(** In a tree with the ordering of keys, the node of [return_min_key]
    holds the least key. *)
Lemma return_min_key_least b self k v r l p :
  ordered b (_root self) ->
  return_min_key self = TreeNode k v r l p ->
  Forall (fun x => k <= x) (keys_of (inorder self Nil)).
Proof.
  intros Ho H. rewrite inorder_root. apply all_keys_Forall.
  eapply leftmost_least; [exact Ho|exact H].
Qed.

Lemma preorder_inorder n : Permutation (_preorder n) (_inorder n).
Proof.
  induction n as [|k v r IHr l IHl p _]; [reflexivity|].
  cbn [_preorder _inorder app]. rewrite IHl, IHr.
  apply Permutation_middle.
Qed.

Lemma postorder_inorder n : Permutation (_postorder n) (_inorder n).
Proof.
  induction n as [|k v r IHr l IHl p _]; [reflexivity|].
  cbn [_postorder _inorder app]. rewrite IHl, IHr.
  apply Permutation_app_head.
  symmetry. apply Permutation_cons_append.
Qed.

(** ** The parent field *)

Lemma parents_absent_inorder n m :
  parents_absent n -> In m (_inorder n) ->
  exists k v r l, m = TreeNode k v r l Nil.
Proof.
  induction n as [|nk nv nr IHr nl IHl np _]; simpl; [tauto|].
  intros (Hp & Hl & Hr). rewrite in_app_iff. simpl.
  intros [H|[H|H]]; auto.
  subst. eauto.
Qed.

Lemma parents_absent_find n k :
  parents_absent n -> _find_recursive n k <> Nil ->
  exists fk fv fr fl, _find_recursive n k = TreeNode fk fv fr fl Nil.
Proof.
  induction n as [|nk nv nr IHr nl IHl np _]; simpl; [tauto|].
  intros (Hp & Hl & Hr).
  destruct (k =? nk); [subst; eauto|].
  destruct (k <? nk); auto.
Qed.

(** C9: in a tree built from the empty tree by [insert] and [remove],
    every node yielded by a traversal, and every node returned by [find],
    has no parent and depth 0. *)
Theorem parent_never_assigned self :
  reachable self ->
  (forall n,
      In n (inorder self Nil) \/ In n (preorder self Nil)
      \/ In n (postorder self Nil) \/ In n (__iter__ self) ->
      parent n = Return Nil /\ depth n = Return 0)
  /\ (forall key n self',
        find self key = (Return n, self') ->
        parent n = Return Nil /\ depth n = Return 0).
Proof.
  intros Hr. apply reachable_invariant in Hr. destruct Hr as [_ Hp].
  split.
  - intros n Hin.
    assert (Hin' : In n (_inorder (_root self))).
    { rewrite inorder_root, preorder_root, postorder_root in Hin.
      unfold __iter__ in Hin.
      destruct Hin as [H|[H|[H|H]]]; [exact H| | |].
      - apply (Permutation_in _ (preorder_inorder _)). exact H.
      - apply (Permutation_in _ (postorder_inorder _)). exact H.
      - apply (Permutation_in _ (preorder_inorder _)). exact H. }
    destruct (parents_absent_inorder _ _ Hp Hin') as (k & v & r & l & ->).
    split; reflexivity.
  - intros key n self'. unfold find.
    destruct (isinstance_int key) as [k|]; [|discriminate].
    destruct (_find_recursive (_root self) k) eqn:Hf; [discriminate|].
    intros H. injection H as Hn _. subst n.
    destruct (parents_absent_find (_root self) k Hp) as (fk & fv & fr & fl & E).
    + rewrite Hf. discriminate.
    + rewrite Hf in E. rewrite E. split; reflexivity.
Qed.

(** ** Subscript *)

(** C10: the subscript gives the value of the node that [find] returns
    and raises what [find] raises: ValueError for a key that is not an
    integer, KeyError for an absent key; a key present in a tree with
    the ordering of keys is found, at a node that holds it; and the tree
    after the subscript is the tree before it. *)
Theorem getitem_is_value_of_find :
  (forall self key n self',
      find self key = (Return n, self') ->
      exists k v r l p,
        n = TreeNode k v r l p /\ isinstance_int key = Some k
        /\ __getitem__ self key = (Return v, self))
  /\ (forall self key e self',
        find self key = (Raise e, self') ->
        __getitem__ self key = (Raise e, self))
  /\ (forall self key,
        isinstance_int key = None ->
        __getitem__ self key = (Raise ValueError, self))
  /\ (forall self key k,
        isinstance_int key = Some k ->
        ~ In k (keys_of (inorder self Nil)) ->
        __getitem__ self key = (Raise KeyError, self))
  /\ (forall self key k,
        ordered false (_root self) ->
        isinstance_int key = Some k ->
        In k (keys_of (inorder self Nil)) ->
        exists v r l p,
          find self key = (Return (TreeNode k v r l p), self)
          /\ __getitem__ self key = (Return v, self))
  /\ (forall self key res self',
        __getitem__ self key = (res, self') -> self' = self).
Proof.
  split; [|split; [|split; [|split; [|split]]]].
  - intros self key n self' H. unfold __getitem__. rewrite H.
    unfold find in H. destruct (isinstance_int key) as [k|]; [|discriminate].
    destruct (_find_recursive (_root self) k) as [|fk fv fr fl fp] eqn:Hf;
      [discriminate|].
    injection H as Hn Hs. subst n self'.
    destruct (find_recursive_key _ _ _ _ _ _ _ Hf) as [-> _].
    exists k, fv, fr, fl, fp. repeat split; reflexivity.
  - intros self key e self' H. unfold __getitem__. rewrite H.
    apply find_raise in H. subst. reflexivity.
  - intros self key Hk. unfold __getitem__, find. rewrite Hk. reflexivity.
  - intros self key k Hk Hin. rewrite inorder_root in Hin.
    apply find_recursive_absent in Hin.
    unfold __getitem__. rewrite (find_absent self key k Hk Hin). reflexivity.
  - intros self key k Ho Hk Hin. rewrite inorder_root in Hin.
    pose proof (find_recursive_present _ _ Ho Hin) as Hf.
    unfold __getitem__, find. rewrite Hk.
    destruct (_find_recursive (_root self) k) as [|fk fv fr fl fp] eqn:E;
      [tauto|].
    destruct (find_recursive_key _ _ _ _ _ _ _ E) as [-> _].
    exists fv, fr, fl, fp. split; reflexivity.
  - intros self key res self'. unfold __getitem__, find.
    destruct (isinstance_int key) as [k|]; [|congruence].
    destruct (_find_recursive (_root self) k); congruence.
Qed.


(** ** Insertion followed by lookup and removal *)

Lemma getitem_lookup self key k :
  isinstance_int key = Some k ->
  __getitem__ self key = (lookup (_root self) k, self).
Proof.
  intros Hk. unfold __getitem__, find, lookup. rewrite Hk.
  destruct (_find_recursive (_root self) k); reflexivity.
Qed.

Lemma insert_recursive_find_new n k v s n' s' :
  _insert_recursive n k v s = (Return tt, (n', s')) ->
  _find_recursive n' k = TreeNode k v Nil Nil Nil.
Proof.
  revert n' s'.
  induction n as [|nk nv r IHr l IHl p _]; intros n' s' H; simpl in H;
    [discriminate|].
  destruct (k =? nk) eqn:Ek; [discriminate|].
  destruct (k <? nk) eqn:El.
  - destruct l as [|lk lv lr ll lp].
    + inversion H; subst; clear H. simpl. rewrite Ek, El, Z.eqb_refl.
      reflexivity.
    + destruct (_insert_recursive (TreeNode lk lv lr ll lp) k v s)
        as [res [l' s'']] eqn:E.
      inversion H; subst; clear H.
      cbn [_find_recursive]. rewrite Ek, El. apply (IHl _ _ eq_refl).
  - destruct r as [|rk rv rr rl rp].
    + inversion H; subst; clear H. simpl. rewrite Ek, El, Z.eqb_refl.
      reflexivity.
    + destruct (_insert_recursive (TreeNode rk rv rr rl rp) k v s)
        as [res [r' s'']] eqn:E.
      inversion H; subst; clear H.
      cbn [_find_recursive]. rewrite Ek, El. apply (IHr _ _ eq_refl).
Qed.

Lemma lookup_leaf k v k' :
  k' <> k -> lookup (TreeNode k v Nil Nil Nil) k' = Raise KeyError.
Proof.
  intros Hne. unfold lookup. simpl.
  destruct (k' =? k) eqn:E; [apply Z.eqb_eq in E; contradiction|].
  destruct (k' <? k); reflexivity.
Qed.

Lemma lookup_node nk nv r l p k' :
  lookup (TreeNode nk nv r l p) k' =
  if k' =? nk then Return nv
  else if k' <? nk then lookup l k' else lookup r k'.
Proof.
  unfold lookup. simpl.
  destruct (k' =? nk); [reflexivity|]. destruct (k' <? nk); reflexivity.
Qed.

Lemma insert_recursive_lookup_other n k v s n' s' k' :
  _insert_recursive n k v s = (Return tt, (n', s')) -> k' <> k ->
  lookup n' k' = lookup n k'.
Proof.
  intros H Hne. revert n' s' H.
  induction n as [|nk nv r IHr l IHl p _]; intros n' s' H; simpl in H;
    [discriminate|].
  destruct (k =? nk) eqn:Ek; [discriminate|].
  destruct (k <? nk) eqn:El.
  - destruct l as [|lk lv lr ll lp].
    + inversion H; subst; clear H.
      rewrite (lookup_node nk nv r (TreeNode k v Nil Nil Nil)),
              (lookup_node nk nv r Nil).
      rewrite (lookup_leaf k v k' Hne). reflexivity.
    + destruct (_insert_recursive (TreeNode lk lv lr ll lp) k v s)
        as [res [l' s'']] eqn:E.
      inversion H; subst; clear H.
      rewrite (lookup_node nk nv r l'),
              (lookup_node nk nv r (TreeNode _ _ _ _ _)).
      rewrite (IHl _ _ eq_refl). reflexivity.
  - destruct r as [|rk rv rr rl rp].
    + inversion H; subst; clear H.
      rewrite (lookup_node nk nv (TreeNode k v Nil Nil Nil) l),
              (lookup_node nk nv Nil l).
      rewrite (lookup_leaf k v k' Hne). reflexivity.
    + destruct (_insert_recursive (TreeNode rk rv rr rl rp) k v s)
        as [res [r' s'']] eqn:E.
      inversion H; subst; clear H.
      rewrite (lookup_node nk nv r'), (lookup_node nk nv (TreeNode _ _ _ _ _)).
      rewrite (IHr _ _ eq_refl). reflexivity.
Qed.

Lemma remove_recursive_lt nk nv r l p k :
  k < nk ->
  remove_recursive k (TreeNode nk nv r l p) =
  (TreeNode nk nv r (fst (remove_recursive k l)) p,
   snd (remove_recursive k l)).
Proof.
  intros H. cbn [remove_recursive].
  replace (k <? nk) with true by (symmetry; apply Z.ltb_lt; exact H).
  destruct (remove_recursive k l); reflexivity.
Qed.

Lemma remove_recursive_gt nk nv r l p k :
  nk < k ->
  remove_recursive k (TreeNode nk nv r l p) =
  (TreeNode nk nv (fst (remove_recursive k r)) l p,
   snd (remove_recursive k r)).
Proof.
  intros H. cbn [remove_recursive]. rewrite Z.gtb_ltb.
  replace (k <? nk) with false by (symmetry; apply Z.ltb_ge; lia).
  replace (nk <? k) with true by (symmetry; apply Z.ltb_lt; exact H).
  destruct (remove_recursive k r); reflexivity.
Qed.

Lemma remove_recursive_leaf k v p :
  remove_recursive k (TreeNode k v Nil Nil p) = (Nil, true).
Proof.
  cbn [remove_recursive]. rewrite Z.gtb_ltb, Z.ltb_irrefl. reflexivity.
Qed.

Lemma insert_recursive_remove n k v s n' s' :
  _insert_recursive n k v s = (Return tt, (n', s')) ->
  remove_recursive k n' = (n, true).
Proof.
  revert n' s'.
  induction n as [|nk nv r IHr l IHl p _]; intros n' s' H; simpl in H;
    [discriminate|].
  destruct (k =? nk) eqn:Ek; [discriminate|]. apply Z.eqb_neq in Ek.
  destruct (k <? nk) eqn:El.
  - apply Z.ltb_lt in El.
    destruct l as [|lk lv lr ll lp].
    + inversion H; subst; clear H.
      rewrite (remove_recursive_lt _ _ _ _ _ _ El), remove_recursive_leaf.
      reflexivity.
    + destruct (_insert_recursive (TreeNode lk lv lr ll lp) k v s)
        as [res [l' s'']] eqn:E.
      inversion H; subst; clear H.
      rewrite (remove_recursive_lt _ _ _ _ _ _ El), (IHl _ _ eq_refl).
      reflexivity.
  - apply Z.ltb_ge in El. assert (Hgt : nk < k) by lia.
    destruct r as [|rk rv rr rl rp].
    + inversion H; subst; clear H.
      rewrite (remove_recursive_gt _ _ _ _ _ _ Hgt), remove_recursive_leaf.
      reflexivity.
    + destruct (_insert_recursive (TreeNode rk rv rr rl rp) k v s)
        as [res [r' s'']] eqn:E.
      inversion H; subst; clear H.
      rewrite (remove_recursive_gt _ _ _ _ _ _ Hgt), (IHr _ _ eq_refl).
      reflexivity.
Qed.

Lemma insert_return_recursive self key v self' :
  insert self key v = (Return tt, self') ->
  exists k, isinstance_int key = Some k
    /\ _num_of_comparisons self' = _num_of_comparisons self
    /\ _size self' = _size self + 1
    /\ ((_root self = Nil /\ _root self' = TreeNode k v Nil Nil Nil)
        \/ _insert_recursive (_root self) k v (_size self)
           = (Return tt, (_root self', _size self'))).
Proof.
  unfold insert. destruct (isinstance_int key) as [k|]; [|discriminate].
  intros H. exists k. split; [reflexivity|].
  destruct (_root self) as [|rk rv rr rl rp] eqn:Er.
  - inversion H; subst; clear H. simpl. auto.
  - destruct (_insert_recursive (TreeNode rk rv rr rl rp) k v (_size self))
      as [res [root' size']] eqn:E.
    destruct res as [[]|e]; [|destruct e; discriminate].
    inversion H; subst; clear H. cbn [_root _size _num_of_comparisons].
    pose proof (insert_recursive_return _ _ _ _ _ _ E) as (Hs & _).
    split; [reflexivity|]. split; [exact Hs|]. right. reflexivity.
Qed.

(** X1: after a successful [insert] of a key with a value, [find] with
    that key (or any object that is the same integer) returns the new
    node, a leaf with that key and value, and the subscript returns the
    value.  This holds in every tree, ordered or not. *)
Theorem insert_then_find self key v self' key' :
  insert self key v = (Return tt, self') ->
  isinstance_int key' = isinstance_int key ->
  exists k,
    isinstance_int key = Some k
    /\ find self' key' = (Return (TreeNode k v Nil Nil Nil), self')
    /\ __getitem__ self' key' = (Return v, self').
Proof.
  intros H Hsame.
  destruct (insert_return_recursive _ _ _ _ H) as (k & Hk & _ & _ & Hrec).
  exists k. split; [exact Hk|].
  assert (Hf : _find_recursive (_root self') k = TreeNode k v Nil Nil Nil).
  { destruct Hrec as [[_ Hroot]|Hrec].
    - rewrite Hroot. simpl. rewrite Z.eqb_refl. reflexivity.
    - eapply insert_recursive_find_new. exact Hrec. }
  rewrite Hk in Hsame.
  unfold __getitem__, find. rewrite Hsame, Hf. split; reflexivity.
Qed.

(** X2: a successful [insert] changes the subscript for no other key:
    for every object that is not the inserted integer, the subscript
    returns or raises after the insert what it did before. *)
Theorem insert_keeps_other_lookups self key v self' key' :
  insert self key v = (Return tt, self') ->
  isinstance_int key' <> isinstance_int key ->
  fst (__getitem__ self' key') = fst (__getitem__ self key').
Proof.
  intros H Hdiff.
  destruct (insert_return_recursive _ _ _ _ H) as (k & Hk & _ & _ & Hrec).
  destruct (isinstance_int key') as [k'|] eqn:Hk'.
  - rewrite (getitem_lookup self' key' k' Hk'),
            (getitem_lookup self key' k' Hk'). cbn [fst].
    assert (Hne : k' <> k) by (intros ->; apply Hdiff; symmetry; exact Hk).
    destruct Hrec as [[Hnil Hroot]|Hrec].
    + rewrite Hroot, Hnil. apply lookup_leaf. exact Hne.
    + eapply insert_recursive_lookup_other; [exact Hrec|exact Hne].
  - unfold __getitem__, find. rewrite Hk'. reflexivity.
Qed.

(** X3: removing a key right after its successful insertion gives back
    the tree as it was before the insertion: same nodes, same size.  This
    holds in every tree, ordered or not. *)
Theorem insert_then_remove self key v self' :
  insert self key v = (Return tt, self') ->
  remove self' key = (Return tt, self).
Proof.
  intros H.
  destruct (insert_return_recursive _ _ _ _ H) as (k & Hk & Hn & Hs & Hrec).
  assert (Hrem : remove_recursive k (_root self') = (_root self, true)).
  { destruct Hrec as [[Hnil Hroot]|Hrec].
    - rewrite Hroot, Hnil. simpl. rewrite Z.gtb_ltb, Z.ltb_irrefl.
      reflexivity.
    - eapply insert_recursive_remove. exact Hrec. }
  unfold remove. rewrite Hk, Hrem. cbn [negb]. rewrite Hn, Hs.
  destruct self as [root sz cmp]. cbn [_root _size _num_of_comparisons].
  replace (sz + 1 - 1) with sz by lia. reflexivity.
Qed.


(** ** Removal in a tree with the strict ordering *)

Lemma lookup_absent n k :
  ~ In k (tree_keys n) -> lookup n k = Raise KeyError.
Proof.
  intros H. unfold lookup. rewrite (find_recursive_absent n k H).
  reflexivity.
Qed.

Lemma lookup_leftmost n sk sv sr sl sp :
  ordered true n -> leftmost n = TreeNode sk sv sr sl sp ->
  lookup n sk = Return sv.
Proof.
  induction n as [|nk nv r _ l IHl p _]; [discriminate|].
  intros (Al & _ & Ol & _) H. rewrite lookup_node.
  destruct l as [|lk lv lr ll lp].
  - simpl in H. inversion H; subst. rewrite Z.eqb_refl. reflexivity.
  - assert (Hlt : sk < nk).
    { apply (all_keys_In _ _ _ Al). eapply leftmost_in. exact H. }
    replace (sk =? nk) with false by (symmetry; apply Z.eqb_neq; lia).
    replace (sk <? nk) with true by (symmetry; apply Z.ltb_lt; lia).
    apply IHl; assumption.
Qed.

Lemma remove_recursive_strict_keys n k x :
  ordered true n ->
  In x (tree_keys (fst (remove_recursive k n)))
  <-> In x (tree_keys n) /\ x <> k.
Proof.
  induction n as [|nk nv r IHr l IHl p _]; [simpl; tauto|].
  intros (Al & Ar & Ol & Or).
  pose proof (all_keys_In _ _ x Al) as HL.
  pose proof (all_keys_In _ _ x Ar) as HR. simpl in HR.
  destruct (Z.lt_trichotomy k nk) as [Hlt|[Heq|Hgt]].
  - rewrite (remove_recursive_lt _ _ _ _ _ _ Hlt). cbn [fst].
    rewrite !tree_keys_node, !in_app_iff. cbn [In]. rewrite (IHl Ol).
    intuition lia.
  - subst nk. cbn [remove_recursive]. rewrite Z.gtb_ltb, Z.ltb_irrefl.
    destruct l as [|lk lv lr ll lp].
    { cbn [fst]. rewrite tree_keys_node, in_app_iff. cbn [In].
      rewrite tree_keys_nil. cbn [In]. intuition lia. }
    destruct r as [|rk rv rr rl rp].
    { cbn [fst]. rewrite (tree_keys_node k), in_app_iff. cbn [In].
      rewrite tree_keys_nil. cbn [In]. intuition lia. }
    destruct (leftmost_node rk rv rr rl rp) as (sk & sv & sr & sp & Es).
    rewrite Es.
    rewrite (remove_recursive_miss (TreeNode rk rv rr rl rp) k).
    2:{ eapply all_keys_absent; [exact Ar|]. simpl. lia. }
    cbn [fst]. rewrite (tree_keys_node sk), (tree_keys_node k).
    rewrite !in_app_iff. cbn [In].
    assert (Hsk : In sk (tree_keys (TreeNode rk rv rr rl rp)))
      by (eapply leftmost_in; exact Es).
    split.
    + intros [H|[H|H]].
      * split; [auto|]. apply HL in H. lia.
      * subst x. split; [auto|]. apply HR in Hsk. lia.
      * split; [auto|]. apply HR in H. lia.
    + intros [[H|[H|H]] Hne]; [auto|congruence|auto].
  - rewrite (remove_recursive_gt _ _ _ _ _ _ Hgt). cbn [fst].
    rewrite !tree_keys_node, !in_app_iff. cbn [In]. rewrite (IHr Or).
    intuition lia.
Qed.

Lemma remove_recursive_strict_lookup n k k' :
  ordered true n -> k' <> k ->
  lookup (fst (remove_recursive k n)) k' = lookup n k'.
Proof.
  intros Ho Hne. revert Ho.
  induction n as [|nk nv r IHr l IHl p _]; [reflexivity|].
  intros (Al & Ar & Ol & Or).
  assert (HL : forall y, In y (tree_keys l) -> y < nk)
    by (intros y; apply (all_keys_In _ _ y Al)).
  assert (HR : forall y, In y (tree_keys r) -> nk < y)
    by (intros y; apply (all_keys_In _ _ y Ar)).
  destruct (Z.lt_trichotomy k nk) as [Hlt|[Heq|Hgt]].
  - rewrite (remove_recursive_lt _ _ _ _ _ _ Hlt). cbn [fst].
    rewrite (lookup_node nk nv r _ p), (lookup_node nk nv r l p).
    rewrite (IHl Ol). reflexivity.
  - subst nk. rewrite (lookup_node k nv r l p).
    replace (k' =? k) with false by (symmetry; apply Z.eqb_neq; exact Hne).
    cbn [remove_recursive]. rewrite Z.gtb_ltb, Z.ltb_irrefl.
    destruct l as [|lk lv lr ll lp].
    { cbn [fst]. destruct (k' <? k) eqn:E; [|reflexivity].
      apply Z.ltb_lt in E. apply lookup_absent.
      intros Hin. apply HR in Hin. lia. }
    destruct r as [|rk rv rr rl rp].
    { cbn [fst]. destruct (k' <? k) eqn:E; [reflexivity|].
      apply Z.ltb_ge in E. apply lookup_absent.
      intros Hin. apply HL in Hin. lia. }
    destruct (leftmost_node rk rv rr rl rp) as (sk & sv & sr & sp & Es).
    rewrite Es.
    rewrite (remove_recursive_miss (TreeNode rk rv rr rl rp) k).
    2:{ eapply all_keys_absent; [exact Ar|]. simpl. lia. }
    cbn [fst]. rewrite (lookup_node sk sv).
    assert (Hsk : k < sk) by (apply HR; eapply leftmost_in; exact Es).
    pose proof (leftmost_least _ _ _ _ _ _ _ Or Es) as Hmin.
    destruct (k' =? sk) eqn:E1.
    { apply Z.eqb_eq in E1. subst k'.
      replace (sk <? k) with false by (symmetry; apply Z.ltb_ge; lia).
      symmetry. eapply lookup_leftmost; [exact Or|exact Es]. }
    apply Z.eqb_neq in E1.
    destruct (k' <? sk) eqn:E2.
    + apply Z.ltb_lt in E2. destruct (k' <? k) eqn:E3; [reflexivity|].
      apply Z.ltb_ge in E3.
      rewrite (lookup_absent (TreeNode rk rv rr rl rp) k').
      2:{ intros Hin. apply (all_keys_In _ _ _ Hmin) in Hin. lia. }
      apply lookup_absent. intros Hin. apply HL in Hin. lia.
    + apply Z.ltb_ge in E2.
      replace (k' <? k) with false by (symmetry; apply Z.ltb_ge; lia).
      reflexivity.
  - rewrite (remove_recursive_gt _ _ _ _ _ _ Hgt). cbn [fst].
    rewrite (lookup_node nk nv _ l p), (lookup_node nk nv r l p).
    rewrite (IHr Or). reflexivity.
Qed.

Lemma remove_recursive_one_child n k v r l p :
  ordered true n ->
  _find_recursive n k = TreeNode k v r l p -> l = Nil \/ r = Nil ->
  ordered true (fst (remove_recursive k n))
  /\ Permutation (tree_keys n) (k :: tree_keys (fst (remove_recursive k n)))
  /\ count_nodes (fst (remove_recursive k n)) = count_nodes n - 1.
Proof.
  intros Ho Hf Hone. revert Ho Hf.
  induction n as [|nk nv nr IHr nl IHl np _]; [simpl; discriminate|].
  intros (Al & Ar & Ol & Or). cbn [_find_recursive].
  destruct (k =? nk) eqn:Ek.
  - apply Z.eqb_eq in Ek. subst nk. intros H. inversion H; subst; clear H.
    cbn [remove_recursive]. rewrite Z.gtb_ltb, Z.ltb_irrefl.
    destruct l as [|lk lv lr ll lp].
    { cbn [fst]. split; [exact Or|]. rewrite tree_keys_node, tree_keys_nil.
      split; [reflexivity|]. cbn [count_nodes]. lia. }
    destruct r as [|rk rv rr rl rp]; [|destruct Hone; discriminate].
    cbn [fst]. split; [exact Ol|]. rewrite (tree_keys_node k), tree_keys_nil.
    split; [symmetry; apply Permutation_cons_append|].
    change (count_nodes (TreeNode k v Nil (TreeNode lk lv lr ll lp) p))
      with (1 + count_nodes (TreeNode lk lv lr ll lp) + 0). lia.
  - apply Z.eqb_neq in Ek. destruct (k <? nk) eqn:El; intros H.
    + apply Z.ltb_lt in El. rewrite (remove_recursive_lt _ _ _ _ _ _ El).
      cbn [fst]. destruct (IHl Ol H) as (Ho' & Hp & Hc).
      split.
      { cbn [ordered]. split; [|auto].
        apply remove_recursive_all_keys. exact Al. }
      rewrite (tree_keys_node nk nv nr nl), (tree_keys_node nk nv nr _).
      split; [rewrite Hp; reflexivity|]. cbn [count_nodes]. lia.
    + apply Z.ltb_ge in El. assert (Hgt : nk < k) by lia.
      rewrite (remove_recursive_gt _ _ _ _ _ _ Hgt).
      cbn [fst]. destruct (IHr Or H) as (Ho' & Hp & Hc).
      split.
      { cbn [ordered]. split; [exact Al|]. split; [|auto].
        apply remove_recursive_all_keys. exact Ar. }
      rewrite (tree_keys_node nk nv nr nl), (tree_keys_node nk nv _ nl).
      split; [apply perm_insert_right; exact Hp|]. cbn [count_nodes]. lia.
Qed.

Lemma remove_recursive_subset n k x :
  In x (tree_keys (fst (remove_recursive k n))) -> In x (tree_keys n).
Proof.
  apply (all_keys_In (fun y => In y (tree_keys n))).
  apply remove_recursive_all_keys.
  apply all_keys_Forall, Forall_forall. auto.
Qed.


(** ** Sorted sequences of keys *)

Lemma sorted_le_app (a b : list Z) (x : Z) :
  StronglySorted Z.le a -> StronglySorted Z.le b ->
  Forall (fun y => y < x) a -> Forall (fun y => x <= y) b ->
  StronglySorted Z.le (a ++ x :: b).
Proof.
  intros Sa Sb Fa Fb. induction Sa as [|y a Sa IH Hy]; simpl.
  - constructor; assumption.
  - inversion Fa as [|? ? Hyx Fa']; subst. constructor; [auto|].
    rewrite Forall_app. split; [assumption|].
    constructor; [lia|].
    eapply Forall_impl; [|exact Fb]. simpl. intros; lia.
Qed.

Lemma ordered_sorted_le n :
  ordered false n -> StronglySorted Z.le (tree_keys n).
Proof.
  induction n as [|nk nv r IHr l IHl p _]; simpl.
  - intros _. constructor.
  - intros (Hl & Hr & Ol & Or). rewrite tree_keys_node.
    apply sorted_le_app; auto; apply all_keys_Forall; assumption.
Qed.

Lemma sorted_app_inv (a b : list Z) (x : Z) :
  StronglySorted Z.lt (a ++ x :: b) ->
  StronglySorted Z.lt a /\ StronglySorted Z.lt b
  /\ Forall (fun y => y < x) a /\ Forall (fun y => x < y) b.
Proof.
  induction a as [|y a IH]; simpl; intros H.
  - apply StronglySorted_inv in H. destruct H as [Sb Fb].
    repeat split; try constructor; assumption.
  - apply StronglySorted_inv in H. destruct H as [S F].
    destruct (IH S) as (Sa & Sb & Fa & Fb).
    rewrite Forall_app in F. destruct F as [F1 F2].
    inversion F2; subst.
    repeat split; try assumption; constructor; assumption.
Qed.

Lemma sorted_ordered n :
  StronglySorted Z.lt (tree_keys n) -> ordered true n.
Proof.
  induction n as [|nk nv r IHr l IHl p _]; [simpl; auto|].
  rewrite tree_keys_node. intros H.
  destruct (sorted_app_inv _ _ _ H) as (Sl & Sr & Fl & Fr).
  cbn [ordered]. rewrite !all_keys_Forall. auto.
Qed.

Lemma all_keys_trivial (P : Z -> Prop) n :
  (forall x, P x) -> all_keys P n.
Proof.
  intros H. apply all_keys_Forall, Forall_forall. auto.
Qed.

Lemma is_valid_recursive_ordered n :
  is_valid_recursive n NegInf PosInf = true <-> ordered true n.
Proof.
  rewrite is_valid_recursive_spec. split; [tauto|].
  intros H. split; [exact H|]. apply all_keys_trivial.
  intros x. split; reflexivity.
Qed.

(** ** Nodes of the traversals *)

Lemma inorder_hd_leftmost k v r l p :
  hd_error (_inorder (TreeNode k v r l p))
  = Some (leftmost (TreeNode k v r l p)).
Proof.
  revert k v r p. induction l as [|lk lv lr _ ll IHl lp _]; intros k v r p.
  - reflexivity.
  - specialize (IHl lk lv lr lp).
    change (leftmost (TreeNode k v r (TreeNode lk lv lr ll lp) p))
      with (leftmost (TreeNode lk lv lr ll lp)).
    rewrite <- IHl. cbn [_inorder].
    destruct (_inorder ll ++ [TreeNode lk lv lr ll lp] ++ _inorder lr) eqn:E.
    + apply (f_equal (@length node)) in E. rewrite !length_app in E.
      simpl in E. lia.
    + reflexivity.
Qed.

Lemma find_recursive_in_inorder n k fk fv fr fl fp :
  _find_recursive n k = TreeNode fk fv fr fl fp ->
  In (TreeNode fk fv fr fl fp) (_inorder n).
Proof.
  induction n as [|nk nv r IHr l IHl p _]; simpl; [discriminate|].
  rewrite in_app_iff. simpl.
  destruct (k =? nk).
  - intros H. auto.
  - destruct (k <? nk); intros H; auto.
Qed.

Lemma insert_keeps_counter self key v res self' :
  insert self key v = (res, self') ->
  _num_of_comparisons self' = _num_of_comparisons self.
Proof.
  unfold insert. destruct (isinstance_int key) as [k|]; [|congruence].
  destruct (_root self) as [|rk rv rr rl rp].
  - intros H. inversion H; subst. reflexivity.
  - destruct (_insert_recursive (TreeNode rk rv rr rl rp) k v (_size self))
      as [r [root' size']].
    destruct r as [[]|[]]; intros H; inversion H; subst; reflexivity.
Qed.

Lemma remove_keeps_counter self key res self' :
  remove self key = (res, self') ->
  _num_of_comparisons self' = _num_of_comparisons self.
Proof.
  unfold remove. destruct (isinstance_int key) as [k|]; [|congruence].
  destruct (remove_recursive k (_root self)) as [root' d].
  destruct d; simpl; intros H; inversion H; subst; reflexivity.
Qed.

Lemma count_nodes_nonneg n : 0 <= count_nodes n.
Proof.
  induction n as [|k v r IHr l IHl p _]; cbn [count_nodes]; lia.
Qed.


(** ** Further properties of the operations *)

(** X4: inserting an integer key that no node holds succeeds; [size] and
    the number of nodes grow by one, the inorder keys are the old keys and
    the new one, and the ordering of keys (strict or not) is kept. *)
Theorem insert_fresh_key self key k v :
  isinstance_int key = Some k ->
  ~ In k (keys_of (inorder self Nil)) ->
  exists self',
    insert self key v = (Return tt, self')
    /\ size self' = size self + 1
    /\ length (inorder self' Nil) = S (length (inorder self Nil))
    /\ Permutation (keys_of (inorder self' Nil))
                   (k :: keys_of (inorder self Nil))
    /\ (forall b, ordered b (_root self) -> ordered b (_root self')).
Proof.
  intros Hk Hin. rewrite inorder_root in Hin.
  apply find_recursive_absent in Hin.
  destruct (insert_absent self key k v Hk Hin)
    as (root' & E & Hp & Hc & Ho & _).
  eexists. split; [exact E|]. rewrite !inorder_root. cbn [_root _size size].
  split; [reflexivity|]. split; [|split; assumption].
  apply Nat2Z.inj. rewrite Nat2Z.inj_succ, !length_inorder. lia.
Qed.

(** X5: the nested check [is_valid_recursive], called on a node with the
    bounds -inf and +inf, is true exactly when the inorder keys below that
    node are strictly ascending. *)
Theorem is_valid_recursive_iff_ascending n :
  is_valid_recursive n NegInf PosInf = true
  <-> StronglySorted Z.lt (keys_of (_inorder n)).
Proof.
  rewrite is_valid_recursive_ordered. split.
  - apply ordered_sorted.
  - apply sorted_ordered.
Qed.

(** X6: after inserting pairwise distinct integer keys into the empty
    tree, [size] is the number of inserted keys and the number of nodes,
    and the nested validity check accepts the tree. *)
Theorem inserts_give_valid_tree (kvs : list (Z * V)) :
  NoDup (map fst kvs) ->
  exists self',
    insert_all (__init__ Nil) kvs = (Return tt, self')
    /\ size self' = Z.of_nat (length kvs)
    /\ length (inorder self' Nil) = length kvs
    /\ is_valid_recursive (_root self') NegInf PosInf = true.
Proof.
  intros Hnd.
  destruct (insert_all_ascending kvs (__init__ Nil))
    as (self' & E & Ho & Hs & Hp).
  - exact I.
  - exact Hnd.
  - intros k _ H. exact H.
  - exists self'. split; [exact E|]. split; [exact Hs|].
    split; [|apply is_valid_recursive_ordered; exact Ho].
    rewrite inorder_root, <- length_tree_keys.
    rewrite (Permutation_length Hp). cbn [__init__ _root].
    rewrite tree_keys_nil, app_nil_r, length_map. reflexivity.
Qed.

(** X7: in a tree with the strict ordering, a successful [remove] of a
    key leaves exactly the other keys: a key is in the tree afterwards if
    and only if it was there before and is not the removed one; [find]
    with the removed key then raises KeyError. *)
Theorem remove_leaves_other_keys self key self' :
  ordered true (_root self) ->
  remove self key = (Return tt, self') ->
  exists k,
    isinstance_int key = Some k
    /\ (forall x, In x (keys_of (inorder self' Nil))
                  <-> In x (keys_of (inorder self Nil)) /\ x <> k)
    /\ find self' key = (Raise KeyError, self').
Proof.
  intros Ho H. apply remove_return in H. destruct H as (k & Hk & _ & ->).
  exists k. split; [exact Hk|].
  assert (Hkeys : forall x,
             In x (tree_keys (fst (remove_recursive k (_root self))))
             <-> In x (tree_keys (_root self)) /\ x <> k)
    by (intros x; apply remove_recursive_strict_keys; exact Ho).
  rewrite !inorder_root. cbn [_root]. split; [exact Hkeys|].
  apply (find_absent _ key k Hk). cbn [_root].
  apply find_recursive_absent. intros Hin. apply Hkeys in Hin. tauto.
Qed.

(** X8: in a tree with the strict ordering, a successful [remove] changes
    the subscript for no other key: for every object that is not the
    removed integer, the subscript returns or raises afterwards what it did
    before, also when the removed node had two children. *)
Theorem remove_keeps_other_lookups self key self' key' :
  ordered true (_root self) ->
  remove self key = (Return tt, self') ->
  isinstance_int key' <> isinstance_int key ->
  fst (__getitem__ self' key') = fst (__getitem__ self key').
Proof.
  intros Ho H Hdiff. apply remove_return in H.
  destruct H as (k & Hk & _ & ->).
  destruct (isinstance_int key') as [k'|] eqn:Hk'.
  - rewrite (getitem_lookup _ key' k' Hk'), (getitem_lookup self key' k' Hk').
    cbn [fst _root]. apply remove_recursive_strict_lookup; [exact Ho|].
    intros ->. apply Hdiff. symmetry. exact Hk.
  - unfold __getitem__, find. rewrite Hk'. reflexivity.
Qed.

(** X9: in a tree with the strict ordering, removing the key of a node
    that has at most one child works: [size] and the number of nodes drop
    by one, the inorder keys are the old ones without the removed key and
    still strictly ascending, and the nested validity check accepts the
    result. *)
Theorem remove_node_with_one_child_at_most self k v r l p :
  ordered true (_root self) ->
  _find_recursive (_root self) k = TreeNode k v r l p ->
  l = Nil \/ r = Nil ->
  exists self',
    remove self (PyInt k) = (Return tt, self')
    /\ size self' = size self - 1
    /\ S (length (inorder self' Nil)) = length (inorder self Nil)
    /\ Permutation (keys_of (inorder self Nil))
                   (k :: keys_of (inorder self' Nil))
    /\ StronglySorted Z.lt (keys_of (inorder self' Nil))
    /\ is_valid_recursive (_root self') NegInf PosInf = true.
Proof.
  intros Ho Hf Hone.
  assert (Hfound : _find_recursive (_root self) k <> Nil)
    by (rewrite Hf; discriminate).
  rewrite (remove_present self (PyInt k) k eq_refl Hfound).
  eexists. split; [reflexivity|].
  destruct (remove_recursive_one_child _ _ _ _ _ _ Ho Hf Hone)
    as (Ho' & Hp & Hc).
  rewrite !inorder_root. cbn [_root _size size].
  split; [reflexivity|]. split.
  { apply Nat2Z.inj. rewrite Nat2Z.inj_succ, !length_inorder. lia. }
  split; [exact Hp|]. split; [apply ordered_sorted; exact Ho'|].
  apply is_valid_recursive_ordered. exact Ho'.
Qed.

(** X10: in every tree built from the empty tree by successful calls of
    [insert] and [remove], inorder yields the keys in non-decreasing
    order. *)
Theorem reachable_inorder_nondecreasing self :
  reachable self ->
  StronglySorted Z.le (keys_of (inorder self Nil)).
Proof.
  intros Hr. rewrite inorder_root. apply ordered_sorted_le.
  apply reachable_invariant. exact Hr.
Qed.

(** X11: a successful [remove] lowers [size] by one, takes at most one
    node out of the tree and brings no new key into it; this holds in
    every tree. *)
Theorem remove_takes_one_node_at_most self key self' :
  remove self key = (Return tt, self') ->
  size self' = size self - 1
  /\ (length (inorder self Nil) <= S (length (inorder self' Nil)))%nat
  /\ (length (inorder self' Nil) <= length (inorder self Nil))%nat
  /\ (forall x, In x (keys_of (inorder self' Nil)) ->
                In x (keys_of (inorder self Nil))).
Proof.
  intros H. apply remove_return in H. destruct H as (k & _ & _ & ->).
  rewrite !inorder_root. cbn [_root _size size].
  pose proof (remove_recursive_count (_root self) k) as [Hlo Hhi].
  rewrite <- !length_inorder in Hlo, Hhi.
  split; [reflexivity|]. split; [lia|]. split; [lia|].
  intros x. apply remove_recursive_subset.
Qed.

(** X12: in every tree built from the empty tree by successful calls of
    [insert] and [remove], [size] is at most the number of nodes that a
    traversal yields. *)
Theorem reachable_size_at_most_nodes self :
  reachable self ->
  size self <= Z.of_nat (length (inorder self Nil))
  /\ size self <= Z.of_nat (length (__iter__ self)).
Proof.
  intros Hr. apply reachable_size_le_count in Hr.
  rewrite inorder_root, length_inorder. unfold __iter__.
  rewrite length_preorder. auto.
Qed.

(** X13: no call of [insert] or [remove], successful or not, changes the
    comparison counter; in every tree built from the empty tree it is 0. *)
Theorem counter_never_changes :
  (forall self key v res self',
      insert self key v = (res, self') ->
      _num_of_comparisons self' = _num_of_comparisons self)
  /\ (forall self key res self',
        remove self key = (res, self') ->
        _num_of_comparisons self' = _num_of_comparisons self)
  /\ (forall self, reachable self -> _num_of_comparisons self = 0).
Proof.
  split; [exact insert_keeps_counter|]. split; [exact remove_keeps_counter|].
  induction 1 as [|self key v self' _ IH H|self key self' _ IH H].
  - reflexivity.
  - rewrite (insert_keeps_counter _ _ _ _ _ H). exact IH.
  - rewrite (remove_keeps_counter _ _ _ _ H). exact IH.
Qed.

(** X14: from whatever start node, [preorder] and [postorder] yield the
    nodes that [inorder] yields, in another order; started at the root,
    each yields as many nodes as are reachable from it. *)
Theorem traversals_yield_same_nodes self n :
  Permutation (preorder self n) (inorder self n)
  /\ Permutation (postorder self n) (inorder self n)
  /\ Z.of_nat (length (inorder self Nil)) = count_nodes (_root self)
  /\ Z.of_nat (length (preorder self Nil)) = count_nodes (_root self)
  /\ Z.of_nat (length (postorder self Nil)) = count_nodes (_root self).
Proof.
  split; [|split].
  - unfold preorder, inorder. destruct (or_root self n) eqn:E;
      [reflexivity|]. apply preorder_inorder.
  - unfold postorder, inorder. destruct (or_root self n) eqn:E;
      [reflexivity|]. apply postorder_inorder.
  - rewrite inorder_root, preorder_root, postorder_root.
    rewrite length_inorder, length_preorder, length_postorder. auto.
Qed.

(** X15: in a tree with a root, [return_min_key] returns the first node
    that [inorder] yields; when the keys are ordered (strictly or not) its
    key is less than or equal to every key of the tree. *)
Theorem return_min_key_first_of_inorder self :
  _root self <> Nil ->
  hd_error (inorder self Nil) = Some (return_min_key self)
  /\ (forall b, ordered b (_root self) ->
      exists k v r p,
        return_min_key self = TreeNode k v r Nil p
        /\ Forall (fun x => k <= x) (keys_of (inorder self Nil))).
Proof.
  intros Hroot. rewrite inorder_root. unfold return_min_key.
  destruct (_root self) as [|rk rv rr rl rp] eqn:Er; [tauto|].
  split; [apply inorder_hd_leftmost|].
  intros b Ho.
  destruct (leftmost_node rk rv rr rl rp) as (k & v & r & p & E).
  exists k, v, r, p. split; [exact E|].
  apply all_keys_Forall. eapply leftmost_least; [exact Ho|exact E].
Qed.

(** X16: a node that [find] returns is one of the nodes that the
    traversals of the tree yield, and it holds the integer searched. *)
Theorem find_returns_node_of_tree self o n self' :
  find self o = (Return n, self') ->
  In n (inorder self Nil) /\ In n (preorder self Nil)
  /\ In n (postorder self Nil)
  /\ exists k, isinstance_int o = Some k /\ key n = Return k.
Proof.
  unfold find. destruct (isinstance_int o) as [k|]; [|discriminate].
  destruct (_find_recursive (_root self) k) as [|fk fv fr fl fp] eqn:Hf;
    [discriminate|].
  intros H. injection H as Hn _. subst n.
  pose proof (find_recursive_in_inorder _ _ _ _ _ _ _ Hf) as Hin.
  destruct (find_recursive_key _ _ _ _ _ _ _ Hf) as [-> _].
  rewrite inorder_root, preorder_root, postorder_root.
  split; [exact Hin|].
  split; [apply (Permutation_in _ (Permutation_sym (preorder_inorder _)));
          exact Hin|].
  split; [apply (Permutation_in _ (Permutation_sym (postorder_inorder _)));
          exact Hin|].
  exists k. split; reflexivity.
Qed.

(** X17: the depth of a node is the number of nodes on the chain of
    [parent] links that starts at its parent; it never raises. *)
Theorem depth_counts_parents k v r l p :
  depth (TreeNode k v r l p) = Return (Z.of_nat (length (parent_chain p))).
Proof.
  revert k v r l.
  induction p as [|pk pv pr _ pl _ pp IH]; intros k v r l.
  - reflexivity.
  - cbn [depth parent_chain length]. specialize (IH pk pv pr pl).
    cbn [depth] in IH. rewrite IH. rewrite Nat2Z.inj_succ.
    reflexivity.
Qed.

(** X18: a node is external exactly when it is the only node of its
    subtree, internal exactly when the subtree has more nodes, and
    [is_internal] is the negation of [is_external]. *)
Theorem external_iff_single_node k v r l p :
  (is_external (TreeNode k v r l p) = Return true
   <-> count_nodes (TreeNode k v r l p) = 1)
  /\ (is_internal (TreeNode k v r l p) = Return true
      <-> 1 < count_nodes (TreeNode k v r l p))
  /\ exists b, is_external (TreeNode k v r l p) = Return b
               /\ is_internal (TreeNode k v r l p) = Return (negb b).
Proof.
  pose proof (count_nodes_nonneg l) as Hl.
  pose proof (count_nodes_nonneg r) as Hr.
  assert (Hnode : forall a b c d e, 1 <= count_nodes (TreeNode a b c d e)).
  { intros a b c d e. pose proof (count_nodes_nonneg c).
    pose proof (count_nodes_nonneg d). cbn [count_nodes]. lia. }
  unfold is_internal.
  destruct r as [|rk rv rr rl rp]; destruct l as [|lk lv lr ll lp];
    cbn [is_external negb];
    try pose proof (Hnode rk rv rr rl rp);
    try pose proof (Hnode lk lv lr ll lp).
  - split; [|split; [|exists true; auto]].
    + split; [reflexivity|auto].
    + cbn [count_nodes]. split; [discriminate|lia].
  - split; [|split; [|exists false; auto]].
    + split; [discriminate|].
      change (count_nodes (TreeNode k v Nil (TreeNode lk lv lr ll lp) p))
        with (1 + count_nodes (TreeNode lk lv lr ll lp) + 0). lia.
    + split; [|reflexivity]. intros _.
      change (count_nodes (TreeNode k v Nil (TreeNode lk lv lr ll lp) p))
        with (1 + count_nodes (TreeNode lk lv lr ll lp) + 0). lia.
  - split; [|split; [|exists false; auto]].
    + split; [discriminate|].
      change (count_nodes (TreeNode k v (TreeNode rk rv rr rl rp) Nil p))
        with (1 + 0 + count_nodes (TreeNode rk rv rr rl rp)). lia.
    + split; [|reflexivity]. intros _.
      change (count_nodes (TreeNode k v (TreeNode rk rv rr rl rp) Nil p))
        with (1 + 0 + count_nodes (TreeNode rk rv rr rl rp)). lia.
  - split; [|split; [|exists false; auto]].
    + split; [discriminate|].
      change (count_nodes (TreeNode k v (TreeNode rk rv rr rl rp)
                                        (TreeNode lk lv lr ll lp) p))
        with (1 + count_nodes (TreeNode lk lv lr ll lp)
              + count_nodes (TreeNode rk rv rr rl rp)). lia.
    + split; [|reflexivity]. intros _.
      change (count_nodes (TreeNode k v (TreeNode rk rv rr rl rp)
                                        (TreeNode lk lv lr ll lp) p))
        with (1 + count_nodes (TreeNode lk lv lr ll lp)
              + count_nodes (TreeNode rk rv rr rl rp)). lia.
Qed.

Lemma is_external_count k v r l p :
  is_external (TreeNode k v r l p)
  = Return (count_nodes (TreeNode k v r l p) =? 1).
Proof.
  assert (Hnode : forall a b c d e, 1 <= count_nodes (TreeNode a b c d e)).
  { intros a b c d e. pose proof (count_nodes_nonneg c).
    pose proof (count_nodes_nonneg d). cbn [count_nodes]. lia. }
  pose proof (count_nodes_nonneg l) as Hl.
  pose proof (count_nodes_nonneg r) as Hr.
  destruct r as [|rk rv rr rl rp]; destruct l as [|lk lv lr ll lp];
    cbn [is_external]; [reflexivity| | |];
    try pose proof (Hnode rk rv rr rl rp);
    try pose proof (Hnode lk lv lr ll lp);
    f_equal; symmetry; apply Z.eqb_neq; cbn [count_nodes] in *; lia.
Qed.

(** X19: a tree constructed around a given root has [size] 1 whatever
    hangs below that root, so [size] is the number of nodes only when the
    root is [None] or an external node. *)
Theorem init_size_is_node_count_iff root :
  size (__init__ root) = count_nodes root
  <-> root = Nil \/ is_external root = Return true.
Proof.
  destruct root as [|k v r l p].
  - simpl. tauto.
  - rewrite is_external_count. unfold size. cbn [__init__ _size].
    split.
    + intros H. right. rewrite <- H. reflexivity.
    + intros [H|H]; [discriminate|].
      injection H as H. apply Z.eqb_eq in H. symmetry. exact H.
Qed.

(** X20: on every tree and for every integer key, [find] returns a node
    exactly when [remove] succeeds and exactly when [insert] raises
    KeyError; and [find] raises KeyError exactly when [insert] succeeds. *)
Theorem find_remove_insert_agree self k v :
  ((exists n, find self (PyInt k) = (Return n, self))
   <-> exists self', remove self (PyInt k) = (Return tt, self'))
  /\ ((exists n, find self (PyInt k) = (Return n, self))
      <-> insert self (PyInt k) v = (Raise KeyError, self))
  /\ (find self (PyInt k) = (Raise KeyError, self)
      <-> exists self', insert self (PyInt k) v = (Return tt, self')).
Proof.
  destruct (_find_recursive (_root self) k) as [|fk fv fr fl fp] eqn:Hf.
  - rewrite (find_absent self (PyInt k) k eq_refl Hf).
    rewrite (remove_absent self (PyInt k) k eq_refl Hf).
    destruct (insert_absent self (PyInt k) k v eq_refl Hf) as (root' & E & _).
    rewrite E.
    split; [|split]; split;
      try (intros [? H]; discriminate); try discriminate; eauto.
  - assert (Hf' : _find_recursive (_root self) k <> Nil)
      by (rewrite Hf; discriminate).
    rewrite (remove_present self (PyInt k) k eq_refl Hf').
    rewrite (insert_found self (PyInt k) k v eq_refl Hf').
    unfold find. cbn [isinstance_int]. rewrite Hf.
    split; [|split]; split;
      try (intros [? H]; discriminate); try discriminate; eauto.
Qed.


Lemma sorted_lt_NoDup (l : list Z) : StronglySorted Z.lt l -> NoDup l.
Proof.
  induction 1 as [|x l _ IH Hx]; constructor; [|exact IH].
  intros Hin. rewrite Forall_forall in Hx. specialize (Hx x Hin). lia.
Qed.

(** X21: in a tree with the strict ordering, removing the key of a node
    that has two children always ends in a tree that the nested validity
    check rejects, although inorder still yields the keys in
    non-decreasing order. *)
Theorem remove_two_children_fails_check self k v r l p :
  ordered true (_root self) ->
  _find_recursive (_root self) k = TreeNode k v r l p ->
  l <> Nil -> r <> Nil ->
  exists self',
    remove self (PyInt k) = (Return tt, self')
    /\ is_valid_recursive (_root self') NegInf PosInf = false
    /\ StronglySorted Z.le (keys_of (inorder self' Nil)).
Proof.
  intros Ho Hf Hl Hr.
  assert (Hfound : _find_recursive (_root self) k <> Nil)
    by (rewrite Hf; discriminate).
  rewrite (remove_present self (PyInt k) k eq_refl Hfound).
  eexists. split; [reflexivity|]. cbn [_root]. split.
  - destruct (remove_recursive_two_children _ _ _ _ _ _ Ho Hf Hl Hr)
      as [_ Hd].
    apply not_true_is_false. intros Hv. apply Hd.
    apply sorted_lt_NoDup, ordered_sorted.
    apply is_valid_recursive_ordered. exact Hv.
  - rewrite inorder_root. cbn [_root]. apply ordered_sorted_le.
    apply remove_recursive_ordered. apply ordered_weaken. exact Ho.
Qed.

(** X22: a traversal is empty only when the start node and the root are
    both [None]: called with [None] on a tree that has a root, each
    generator yields the whole tree, not an empty sequence. *)
Theorem traversal_empty_iff self n :
  (inorder self n = [] <-> n = Nil /\ _root self = Nil)
  /\ (preorder self n = [] <-> n = Nil /\ _root self = Nil)
  /\ (postorder self n = [] <-> n = Nil /\ _root self = Nil).
Proof.
  assert (Hin : forall m, _inorder m = [] <-> m = Nil).
  { intros m. split; [|intros ->; reflexivity].
    destruct m as [|k v r l p]; [reflexivity|]. cbn [_inorder]. intros H.
    apply (f_equal (@length node)) in H. rewrite !length_app in H.
    simpl in H. lia. }
  assert (Hpre : forall m, _preorder m = [] <-> m = Nil).
  { intros m. split; [|intros ->; reflexivity].
    destruct m as [|k v r l p]; [reflexivity|]. discriminate. }
  assert (Hpost : forall m, _postorder m = [] <-> m = Nil).
  { intros m. split; [|intros ->; reflexivity].
    destruct m as [|k v r l p]; [reflexivity|]. cbn [_postorder]. intros H.
    apply (f_equal (@length node)) in H. rewrite !length_app in H.
    simpl in H. lia. }
  assert (Hor : or_root self n = Nil <-> n = Nil /\ _root self = Nil).
  { unfold or_root. destruct n as [|k v r l p].
    - tauto.
    - split; [discriminate|]. intros [H _]. discriminate. }
  unfold inorder, preorder, postorder. rewrite <- Hor.
  destruct (or_root self n) as [|k v r l p] eqn:E.
  - tauto.
  - rewrite Hin, Hpre, Hpost. tauto.
Qed.

End BST.

Arguments Nil {V}.
Arguments TreeNode {V} key value right left parent.
Arguments mkBST {V} _root _size _num_of_comparisons.
Arguments _root {V} b.
Arguments _size {V} b.
Arguments _num_of_comparisons {V} b.
Arguments __init__ {V} root.
Arguments insert {V} self key v.
Arguments find {V} self key.
Arguments remove {V} self key.
Arguments size {V} self.
Arguments __getitem__ {V} self key.
Arguments __iter__ {V} self.
Arguments inorder {V} self n.
Arguments preorder {V} self n.
Arguments postorder {V} self n.
Arguments return_min_key {V} self.
Arguments insert_all {V} self kvs.
Arguments keys_of {V} l.
Arguments parent {V} self.
Arguments depth {V} self.
Arguments ordered {V} strict n.
Arguments left_chain {V} _ _.
Arguments reachable {V} _.
Arguments tree_213 {V} v2 v1 v3.
Arguments key {V} self.
Arguments value {V} self.
Arguments is_external {V} self.
Arguments is_internal {V} self.
Arguments is_valid_recursive {V} n lower upper.
Arguments count_nodes {V} n.
Arguments parent_chain {V} n.
Arguments _inorder {V} current_node.
Arguments _find_recursive {V} n k.

(** ** The theorems at a concrete tree *)

Lemma tree_213_built :
  insert_all (__init__ Nil) [(2, 20); (1, 10); (3, 30)]
  = (Return tt, tree_213 20 10 30).
Proof. reflexivity. Qed.

Lemma remove_two_children_witness :
  exists self',
    remove (tree_213 20 10 30) (PyInt 2) = (Return tt, self')
    /\ size self' = size (tree_213 20 10 30) - 1
    /\ length (inorder self' Nil) = length (inorder (tree_213 20 10 30) Nil)
    /\ ~ NoDup (keys_of (inorder self' Nil)).
Proof.
  apply (remove_two_children_keeps_successor Z (tree_213 20 10 30) 2 20
           (TreeNode 3 30 Nil Nil Nil) (TreeNode 1 10 Nil Nil Nil) Nil).
  - simpl. repeat split.
  - reflexivity.
  - discriminate.
  - discriminate.
Defined.

Lemma inorder_of_distinct_inserts_witness :
  exists self',
    insert_all (__init__ Nil) [(2, 20); (1, 10); (3, 30)] = (Return tt, self')
    /\ StronglySorted Z.lt (keys_of (inorder self' Nil))
    /\ Permutation (keys_of (inorder self' Nil)) [2; 1; 3].
Proof.
  apply (inorder_of_distinct_inserts_ascending Z [(2, 20); (1, 10); (3, 30)]).
  simpl. repeat (constructor; [simpl; lia|]). constructor.
Defined.

Lemma failing_operations_witness :
  let t := tree_213 20 10 30 in
  insert t PyNone 0 = (Raise ValueError, t)
  /\ insert t (PyInt 3) 0 = (Raise KeyError, t)
  /\ find t (PyInt 7) = (Raise KeyError, t)
  /\ remove t (PyInt 7) = (Raise KeyError, t).
Proof.
  destruct (failing_operations_leave_tree_unchanged Z)
    as (Hvalue & Hdup & _ & Habsent & _).
  split; [apply (Hvalue (tree_213 20 10 30) PyNone 0); reflexivity|].
  split.
  - apply (Hdup (tree_213 20 10 30) (PyInt 3) 3 0).
    + apply (reachable_insert_all Z [(2, 20); (1, 10); (3, 30)] (__init__ Nil));
        [apply reachable_init|reflexivity].
    + reflexivity.
    + simpl. lia.
  - apply (Habsent (tree_213 20 10 30) (PyInt 7) 7).
    + reflexivity.
    + simpl. lia.
Defined.

Lemma empty_traversals_and_minimum_witness :
  (inorder (__init__ (V:=Z) Nil) Nil = []
   /\ preorder (__init__ (V:=Z) Nil) Nil = []
   /\ postorder (__init__ (V:=Z) Nil) Nil = []
   /\ return_min_key (__init__ (V:=Z) Nil) = Nil)
  /\ exists k v r p,
       return_min_key (tree_213 20 10 30) = TreeNode k v r Nil p
       /\ left_chain (_root (tree_213 20 10 30))
                     (return_min_key (tree_213 20 10 30)).
Proof.
  destruct (empty_traversals_and_minimum Z) as (Hempty & Hmin).
  split.
  - apply (Hempty (__init__ Nil)). reflexivity.
  - apply (Hmin (tree_213 20 10 30)). simpl. discriminate.
Defined.

Lemma parent_never_assigned_witness :
  (forall n,
      In n (inorder (tree_213 20 10 30) Nil)
      \/ In n (preorder (tree_213 20 10 30) Nil)
      \/ In n (postorder (tree_213 20 10 30) Nil)
      \/ In n (__iter__ (tree_213 20 10 30)) ->
      parent n = Return Nil /\ depth n = Return 0)
  /\ (forall key n self',
        find (tree_213 20 10 30) key = (Return n, self') ->
        parent n = Return Nil /\ depth n = Return 0).
Proof.
  apply (parent_never_assigned Z (tree_213 20 10 30)).
  apply (reachable_insert_all Z [(2, 20); (1, 10); (3, 30)] (__init__ Nil));
    [apply reachable_init|reflexivity].
Defined.

Lemma getitem_witness :
  exists v r l p,
    find (tree_213 20 10 30) (PyInt 3)
    = (Return (TreeNode 3 v r l p), tree_213 20 10 30)
    /\ __getitem__ (tree_213 20 10 30) (PyInt 3)
       = (Return v, tree_213 20 10 30).
Proof.
  destruct (getitem_is_value_of_find Z) as (_ & _ & _ & _ & Hpresent & _).
  apply (Hpresent (tree_213 20 10 30) (PyInt 3) 3).
  - simpl. unfold right_ok. repeat split; lia.
  - reflexivity.
  - simpl. lia.
Defined.

(** ** The further properties at concrete trees *)

Lemma insert_then_find_witness :
  let s := snd (insert (__init__ Nil) (PyBool true) 5) in
  exists k,
    isinstance_int (PyBool true) = Some k
    /\ find s (PyInt 1) = (Return (TreeNode k 5 Nil Nil Nil), s)
    /\ __getitem__ s (PyInt 1) = (Return 5, s).
Proof.
  intros s.
  apply (insert_then_find Z (__init__ Nil) (PyBool true) 5 s (PyInt 1));
    reflexivity.
Defined.

Lemma insert_keeps_other_lookups_witness :
  let s := snd (insert (tree_213 20 10 30) (PyInt 7) 70) in
  fst (__getitem__ s (PyInt 3))
  = fst (__getitem__ (tree_213 20 10 30) (PyInt 3)).
Proof.
  intros s.
  apply (insert_keeps_other_lookups Z (tree_213 20 10 30) (PyInt 7) 70 s
           (PyInt 3)).
  - reflexivity.
  - simpl. discriminate.
Defined.

Lemma insert_then_remove_witness :
  remove (snd (insert (tree_213 20 10 30) (PyInt 7) 70)) (PyInt 7)
  = (Return tt, tree_213 20 10 30).
Proof.
  apply (insert_then_remove Z (tree_213 20 10 30) (PyInt 7) 70). reflexivity.
Defined.

Lemma insert_fresh_key_witness :
  exists self',
    insert (tree_213 20 10 30) (PyInt 7) 70 = (Return tt, self')
    /\ size self' = size (tree_213 20 10 30) + 1
    /\ length (inorder self' Nil)
       = S (length (inorder (tree_213 20 10 30) Nil))
    /\ Permutation (keys_of (inorder self' Nil))
                   (7 :: keys_of (inorder (tree_213 20 10 30) Nil))
    /\ (forall b, ordered b (_root (tree_213 20 10 30)) ->
                  ordered b (_root self')).
Proof.
  apply (insert_fresh_key Z (tree_213 20 10 30) (PyInt 7) 7 70).
  - reflexivity.
  - simpl. lia.
Defined.

Lemma inserts_give_valid_tree_witness :
  exists self',
    insert_all (__init__ Nil) [(2, 20); (1, 10); (3, 30)] = (Return tt, self')
    /\ size self' = 3
    /\ length (inorder self' Nil) = 3%nat
    /\ is_valid_recursive (_root self') NegInf PosInf = true.
Proof.
  apply (inserts_give_valid_tree Z [(2, 20); (1, 10); (3, 30)]).
  simpl. repeat (constructor; [simpl; lia|]). constructor.
Defined.

Lemma remove_leaves_other_keys_witness :
  let s := snd (remove (tree_213 20 10 30) (PyInt 2)) in
  exists k,
    isinstance_int (PyInt 2) = Some k
    /\ (forall x, In x (keys_of (inorder s Nil))
                  <-> In x (keys_of (inorder (tree_213 20 10 30) Nil))
                      /\ x <> k)
    /\ find s (PyInt 2) = (Raise KeyError, s).
Proof.
  intros s.
  apply (remove_leaves_other_keys Z (tree_213 20 10 30) (PyInt 2) s).
  - simpl. repeat split.
  - reflexivity.
Defined.

Lemma remove_keeps_other_lookups_witness :
  let s := snd (remove (tree_213 20 10 30) (PyInt 2)) in
  fst (__getitem__ s (PyInt 3))
  = fst (__getitem__ (tree_213 20 10 30) (PyInt 3)).
Proof.
  intros s.
  apply (remove_keeps_other_lookups Z (tree_213 20 10 30) (PyInt 2) s
           (PyInt 3)).
  - simpl. repeat split.
  - reflexivity.
  - simpl. discriminate.
Defined.

Lemma remove_node_with_one_child_at_most_witness :
  exists self',
    remove (tree_213 20 10 30) (PyInt 1) = (Return tt, self')
    /\ size self' = size (tree_213 20 10 30) - 1
    /\ S (length (inorder self' Nil))
       = length (inorder (tree_213 20 10 30) Nil)
    /\ Permutation (keys_of (inorder (tree_213 20 10 30) Nil))
                   (1 :: keys_of (inorder self' Nil))
    /\ StronglySorted Z.lt (keys_of (inorder self' Nil))
    /\ is_valid_recursive (_root self') NegInf PosInf = true.
Proof.
  apply (remove_node_with_one_child_at_most Z (tree_213 20 10 30) 1 10
           Nil Nil Nil).
  - simpl. repeat split.
  - reflexivity.
  - left. reflexivity.
Defined.

Lemma reachable_inorder_nondecreasing_witness :
  StronglySorted Z.le
    (keys_of (inorder (snd (remove (tree_213 20 10 30) (PyInt 2))) Nil)).
Proof.
  apply (reachable_inorder_nondecreasing Z).
  apply (reachable_remove Z (tree_213 20 10 30) (PyInt 2)); [|reflexivity].
  apply (reachable_insert_all Z [(2, 20); (1, 10); (3, 30)] (__init__ Nil));
    [apply reachable_init|reflexivity].
Defined.

Lemma remove_takes_one_node_at_most_witness :
  let s := snd (remove (tree_213 20 10 30) (PyInt 2)) in
  size s = size (tree_213 20 10 30) - 1
  /\ (length (inorder (tree_213 20 10 30) Nil)
      <= S (length (inorder s Nil)))%nat
  /\ (length (inorder s Nil)
      <= length (inorder (tree_213 20 10 30) Nil))%nat
  /\ (forall x, In x (keys_of (inorder s Nil)) ->
                In x (keys_of (inorder (tree_213 20 10 30) Nil))).
Proof.
  intros s.
  apply (remove_takes_one_node_at_most Z (tree_213 20 10 30) (PyInt 2) s).
  reflexivity.
Defined.

Lemma reachable_size_at_most_nodes_witness :
  let s := snd (remove (tree_213 20 10 30) (PyInt 2)) in
  size s <= Z.of_nat (length (inorder s Nil))
  /\ size s <= Z.of_nat (length (__iter__ s)).
Proof.
  intros s. apply (reachable_size_at_most_nodes Z s).
  apply (reachable_remove Z (tree_213 20 10 30) (PyInt 2)); [|reflexivity].
  apply (reachable_insert_all Z [(2, 20); (1, 10); (3, 30)] (__init__ Nil));
    [apply reachable_init|reflexivity].
Defined.

Lemma counter_never_changes_witness :
  _num_of_comparisons (snd (insert (tree_213 20 10 30) (PyInt 7) 70))
  = _num_of_comparisons (tree_213 20 10 30)
  /\ _num_of_comparisons (snd (remove (tree_213 20 10 30) (PyInt 2)))
     = _num_of_comparisons (tree_213 20 10 30)
  /\ _num_of_comparisons (tree_213 20 10 30) = 0.
Proof.
  destruct (counter_never_changes Z) as (Hins & Hrem & Hreach).
  split; [|split].
  - apply (Hins (tree_213 20 10 30) (PyInt 7) 70 (Return tt)). reflexivity.
  - apply (Hrem (tree_213 20 10 30) (PyInt 2) (Return tt)). reflexivity.
  - apply Hreach.
    apply (reachable_insert_all Z [(2, 20); (1, 10); (3, 30)] (__init__ Nil));
      [apply reachable_init|reflexivity].
Defined.

Lemma return_min_key_first_of_inorder_witness :
  hd_error (inorder (tree_213 20 10 30) Nil)
  = Some (return_min_key (tree_213 20 10 30))
  /\ (forall b, ordered b (_root (tree_213 20 10 30)) ->
      exists k v r p,
        return_min_key (tree_213 20 10 30) = TreeNode k v r Nil p
        /\ Forall (fun x => k <= x)
                  (keys_of (inorder (tree_213 20 10 30) Nil))).
Proof.
  apply (return_min_key_first_of_inorder Z (tree_213 20 10 30)).
  simpl. discriminate.
Defined.

Lemma find_returns_node_of_tree_witness :
  let n := TreeNode 3 30 Nil Nil Nil in
  In n (inorder (tree_213 20 10 30) Nil)
  /\ In n (preorder (tree_213 20 10 30) Nil)
  /\ In n (postorder (tree_213 20 10 30) Nil)
  /\ exists k, isinstance_int (PyInt 3) = Some k /\ key n = Return k.
Proof.
  intros n.
  apply (find_returns_node_of_tree Z (tree_213 20 10 30) (PyInt 3) n
           (tree_213 20 10 30)).
  reflexivity.
Defined.

Lemma remove_two_children_fails_check_witness :
  exists self',
    remove (tree_213 20 10 30) (PyInt 2) = (Return tt, self')
    /\ is_valid_recursive (_root self') NegInf PosInf = false
    /\ StronglySorted Z.le (keys_of (inorder self' Nil)).
Proof.
  apply (remove_two_children_fails_check Z (tree_213 20 10 30) 2 20
           (TreeNode 3 30 Nil Nil Nil) (TreeNode 1 10 Nil Nil Nil) Nil).
  - simpl. repeat split.
  - reflexivity.
  - discriminate.
  - discriminate.
Defined.
